(* ===================================================================== *)
(* bq_utils/bigquery_description_manager.py: field-description manager   *)
(*                                                                       *)
(* A shallow embedding of BigQueryDescriptionManager: the flattening of  *)
(* a schema into a path -> description dictionary, the recursive update  *)
(* of a target schema, and the copy / upload drivers that talk to the    *)
(* BigQuery client.                                                      *)
(* ===================================================================== *)

From Stdlib Require Import Ascii.
From stdpp Require Import gmap strings list fin_maps.
From Equations Require Import Equations.

Local Open Scope string_scope.
Local Open Scope list_scope.

(* --------------------------------------------------------------------- *)
(* Exceptions and the result monad                                       *)
(* --------------------------------------------------------------------- *)

(** The exceptions the module can see: the two the Python code itself can
    raise on a subscript, and whatever a collaborator (the BigQuery client,
    the file system) raises, kept opaque. *)
Inductive Exn :=
| KeyError (key : string)
| IndexError
| ClientError (what : string).

Inductive Result (A : Type) :=
| Ok (a : A)
| Raise (e : Exn).
Arguments Ok {A} a.
Arguments Raise {A} e.

Definition bind {A B} (r : Result A) (k : A → Result B) : Result B :=
  match r with
  | Ok a => k a
  | Raise e => Raise e
  end.

Declare Scope result_scope.
Delimit Scope result_scope with result.
Notation "x ← r ; k" := (bind r (λ x, k))
  (at level 20, r at level 100, k at level 200, only parsing) : result_scope.
Local Open Scope result_scope.

(** A list comprehension / for loop whose body can raise: the first
    exception ends it. *)
Definition mapM {A B} (f : A → Result B) : list A → Result (list B) :=
  fix go (l : list A) : Result (list B) :=
    match l with
    | [] => Ok []
    | x :: rest =>
        y ← f x;
        ys ← go rest;
        Ok (y :: ys)
    end.

(* --------------------------------------------------------------------- *)
(* Data model                                                            *)
(* --------------------------------------------------------------------- *)

(** google.cloud.bigquery.schema.SchemaField, as the module uses it:
    name, field_type, mode, description (None when there is none) and the
    tuple of nested fields. *)
#[warnings="-register-all"]
Inductive SchemaField := mkSchemaField {
  name : string;
  field_type : string;
  mode : string;
  description : option string;
  fields : list SchemaField
}.

(** The dictionary `SchemaField.to_api_repr()` returns.  The keys 'name',
    'type', 'mode' and 'description' are always there; the key 'fields' is
    there for record-typed fields only, which is what `'fields' in field`
    tests. *)
#[warnings="-register-all"]
Inductive ApiField := mkApiField {
  api_name : string;
  api_type : string;
  api_mode : string;
  api_description : option string;
  api_fields : option (list ApiField)
}.

(** The dictionary of fully-qualified field names and descriptions.  A value
    is a Python string or None (a source field without a description). *)
Abbreviation Descriptions := (gmap string (option string)).

(** Python truthiness of a description value: None and the empty string are
    false. *)
Definition truthy (v : option string) : bool :=
  match v with
  | Some (String _ _) => true
  | Some EmptyString => false
  | None => false
  end.

(** `d[k]` on a dict. *)
Definition getitem {V} (d : gmap string V) (k : string) : Result V :=
  match d !! k with
  | Some v => Ok v
  | None => Raise (KeyError k)
  end.

(** `k in d`. *)
Definition contains {V} (k : string) (d : gmap string V) : bool :=
  bool_decide (is_Some (d !! k)).

(** `'{}.{}'.format(parent, child)`. *)
Definition qualify (parent child : string) : string :=
  parent +:+ "." +:+ child.

(* --------------------------------------------------------------------- *)
(* _update_field                                                         *)
(* --------------------------------------------------------------------- *)

(** `_update_field(field, name, descriptions)`.  The Python mutates the
    dictionary `field` in place; every dictionary of `temp_schema` is
    fresh and reachable along one path only, so the mutation is a
    functional update returned to the caller. *)
Fixpoint _update_field (field : ApiField) (name : string)
    (descriptions : Descriptions) {struct field} : Result ApiField :=
  match field with
  | mkApiField n t m d fs =>
      cond ← (if contains name descriptions
              then v ← getitem descriptions name; Ok (truthy v)
              else Ok false);
      d' ← (if cond : bool
            then getitem descriptions name
            else Ok d);
      match fs with
      | Some nested =>
          nested' ← mapM (λ nested_field,
                            _update_field nested_field
                              (qualify name (api_name nested_field))
                              descriptions) nested;
          Ok (mkApiField n t m d' (Some nested'))
      | None => Ok (mkApiField n t m d' None)
      end
  end.

(* --------------------------------------------------------------------- *)
(* _get_new_schema                                                       *)
(* --------------------------------------------------------------------- *)

Section ApiRepr.

(** `SchemaField.to_api_repr` and `SchemaField.from_api_repr` belong to the
    google-cloud-bigquery client library, not to this repository.  They are
    taken as the library documents them: the dictionary carries the name,
    the type, the mode and the description of the field as they are, and
    the nested fields under the key 'fields' when the type is a record
    type; reading it back takes the nested fields from 'fields', or none
    when the key is absent.  Types and modes are the strings the schema
    store serves.

    The library's test for a record type (`field_type` is RECORD or STRUCT)
    is a parameter. *)
Variable is_struct : string → bool.

(** `SchemaField.to_api_repr()`. *)
Fixpoint to_api_repr (f : SchemaField) : ApiField :=
  mkApiField (name f) (field_type f) (mode f) (description f)
    (if is_struct (field_type f)
     then Some (map to_api_repr (fields f))
     else None).

(** `SchemaField.from_api_repr(api_repr)`: `api_repr.get('fields', ())`. *)
Fixpoint from_api_repr (a : ApiField) : SchemaField :=
  mkSchemaField (api_name a) (api_type a) (api_mode a) (api_description a)
    (match api_fields a with
     | Some nested => map from_api_repr nested
     | None => []
     end).

(** `_get_new_schema(schema, descriptions)`. *)
Definition _get_new_schema (schema : list SchemaField)
    (descriptions : Descriptions) : Result (list SchemaField) :=
  let temp_schema := map to_api_repr schema in
  temp_schema' ← mapM (λ field,
                         _update_field field (api_name field) descriptions)
                      temp_schema;
  Ok (map from_api_repr temp_schema').

End ApiRepr.

(* --------------------------------------------------------------------- *)
(* _get_descriptions_from_schema                                         *)
(* --------------------------------------------------------------------- *)

(** `list.pop()`: the last element and the list without it. *)
Fixpoint pop {A} (l : list A) : option (list A * A) :=
  match l with
  | [] => None
  | x :: rest =>
      match pop rest with
      | None => Some ([], x)
      | Some (init, y) => Some (x :: init, y)
      end
  end.

(** Number of fields of a tree rooted at [f]; the worklist loop ends
    because every turn replaces a field by its children. *)
Fixpoint field_size (f : SchemaField) : nat :=
  S (list_sum (map field_size (fields f))).

Definition worklist_size (l : list (string * SchemaField)) : nat :=
  list_sum (map (λ entry, field_size entry.2) l).

(** The fields pushed for the children of the popped entry. *)
Definition nested_entries (entry : string * SchemaField)
    : list (string * SchemaField) :=
  map (λ nested_field, (qualify entry.1 (name nested_field), nested_field))
      (fields entry.2).

Definition inspect {A} (a : A) : {b : A | a = b} := exist _ a eq_refl.

Lemma pop_Some {A} (l init : list A) (x : A) :
  pop l = Some (init, x) → l = init ++ [x].
Proof.
  revert init x. induction l as [|y l IH]; intros init x; simpl; [done|].
  destruct (pop l) as [[i z]|] eqn:E.
  - intros [= <- <-]. by rewrite (IH _ _ eq_refl).
  - intros [= <- <-]. destruct l as [|y' l']; [done|].
    simpl in E. by destruct (pop l') as [[? ?]|].
Qed.

Lemma worklist_size_app l1 l2 :
  worklist_size (l1 ++ l2) = worklist_size l1 + worklist_size l2.
Proof. unfold worklist_size. by rewrite map_app, list_sum_app. Qed.

Lemma worklist_size_nested entry :
  worklist_size (nested_entries entry) < field_size entry.2.
Proof.
  destruct entry as [p [n t m d fs]]. unfold worklist_size, nested_entries.
  simpl. rewrite map_map. simpl. apply Nat.lt_succ_diag_r.
Qed.

(** The `while fields_to_process:` loop of `_get_descriptions_from_schema`,
    with the worklist and the dictionary built so far as its state. *)
Equations? process (fields_to_process : list (string * SchemaField))
    (descriptions : Descriptions) : Descriptions
    by wf (worklist_size fields_to_process) lt :=
  process fields_to_process descriptions
    with inspect (pop fields_to_process) := {
    | exist _ None _ => descriptions
    | exist _ (Some (rest, field)) Hpop =>
        process (rest ++ nested_entries field)
                (<[field.1 := description field.2]> descriptions) }.
Proof.
  apply pop_Some in Hpop. subst fields_to_process.
  rewrite !worklist_size_app.
  match goal with
  | |- context [nested_entries ?e] =>
      pose proof (worklist_size_nested e);
      assert (worklist_size [e] = field_size e.2)
        by (unfold worklist_size; cbn [map list_sum fold_right];
            apply Nat.add_0_r)
  end.
  lia.
Qed.

(** `_get_descriptions_from_schema(schema)`. *)
Definition _get_descriptions_from_schema (schema : list SchemaField)
    : Descriptions :=
  let fields_to_process := map (λ column, (name column, column)) schema in
  process fields_to_process ∅.

(* --------------------------------------------------------------------- *)
(* The BigQuery client and the drivers                                   *)
(* --------------------------------------------------------------------- *)

(** google.cloud.bigquery.Table, as the module uses it: the table
    reference, the schema, and every other property of the table
    (partitioning, labels, access policy, ...) kept by name. *)
Record Table := mkTable {
  full_table_id : string;
  schema : list SchemaField;
  properties : gmap string string
}.

(** `target_table.schema = new_schema`. *)
Definition set_schema (table : Table) (new_schema : list SchemaField) : Table :=
  mkTable (full_table_id table) new_schema (properties table).

(** A run of a driver: the calls it makes on its collaborators, each with
    the continuation that receives the answer.  `logging.debug` has no
    part in the result and is left out. *)
Inductive Prog (A : Type) : Type :=
| Return (a : A)
| Throw (e : Exn)
| GetTable (table_id : string) (k : Table → Prog A)
| UpdateTable (table : Table) (update_fields : list string) (k : unit → Prog A)
| ReadCsv (csv_path : string) (k : list (list string) → Prog A).
Arguments Return {A} a.
Arguments Throw {A} e.
Arguments GetTable {A} table_id k.
Arguments UpdateTable {A} table update_fields k.
Arguments ReadCsv {A} csv_path k.

(** An exception raised by the pure part ends the run. *)
Definition lift {A B} (r : Result A) (k : A → Prog B) : Prog B :=
  match r with
  | Ok a => k a
  | Raise e => Throw e
  end.

(** `row[i]` on a row of the csv reader. *)
Definition row_item (row : list string) (i : nat) : Result string :=
  match row !! i with
  | Some cell => Ok cell
  | None => Raise IndexError
  end.

(** `{row[0]: row[1] for row in csv_reader}`: the rows are taken in order,
    a later row with the same key replaces the earlier one, a row with
    fewer than two cells raises. *)
Definition rows_to_descriptions (rows : list (list string))
    : Result Descriptions :=
  pairs ← mapM (λ row, key ← row_item row 0;
                       value ← row_item row 1;
                       Ok (key, Some value)) rows;
  Ok (foldl (λ (d : Descriptions) pair, <[pair.1 := pair.2]> d) ∅ pairs).

Section Drivers.

Variable is_struct : string → bool.

(** `_update_table(target_full_table_id, descriptions)`. *)
Definition _update_table (target_full_table_id : string)
    (descriptions : Descriptions) : Prog unit :=
  GetTable target_full_table_id (λ target_table,
    lift (_get_new_schema is_struct (schema target_table) descriptions)
      (λ new_schema,
         let target_table := set_schema target_table new_schema in
         UpdateTable target_table ["schema"] (λ _, Return tt))).

(** `copy_field_descriptions(source_full_table_id, target_full_table_id)`. *)
Definition copy_field_descriptions
    (source_full_table_id target_full_table_id : string) : Prog unit :=
  GetTable source_full_table_id (λ source_table,
    let descriptions := _get_descriptions_from_schema (schema source_table) in
    _update_table target_full_table_id descriptions).

(** `upload_fields_descriptions_from_csv(csv_path, target_full_table_id)`. *)
Definition upload_fields_descriptions_from_csv
    (csv_path target_full_table_id : string) : Prog unit :=
  ReadCsv csv_path (λ csv_reader,
    lift (rows_to_descriptions csv_reader)
      (λ descriptions, _update_table target_full_table_id descriptions)).

End Drivers.

(** The collaborators of a run, over any state [W] of the outside world.
    `get_table` and reading the csv file are reads: they answer or raise and
    leave the world as it is.  `update_table` is the one call that may change
    it, also when it raises. *)
Record Client (W : Type) := mkClient {
  get_table : W → string → Result Table;
  update_table : W → Table → list string → W * Result unit;
  read_csv : W → string → Result (list (list string))
}.
Arguments get_table {W} c w table_id.
Arguments update_table {W} c w table update_fields.
Arguments read_csv {W} c w csv_path.

(** What the collaborators saw, in order. *)
Inductive Call :=
| CallGetTable (table_id : string)
| CallUpdateTable (table : Table) (update_fields : list string)
| CallReadCsv (csv_path : string).

(** Running a driver against a client: final world, calls made, outcome. *)
Fixpoint run {W A} (c : Client W) (p : Prog A) (w : W)
    : W * list Call * Result A :=
  match p with
  | Return a => (w, [], Ok a)
  | Throw e => (w, [], Raise e)
  | GetTable table_id k =>
      match get_table c w table_id with
      | Ok table =>
          let '(w', calls, r) := run c (k table) w in
          (w', CallGetTable table_id :: calls, r)
      | Raise e => (w, [CallGetTable table_id], Raise e)
      end
  | UpdateTable table update_fields k =>
      match update_table c w table update_fields with
      | (w1, Ok u) =>
          let '(w', calls, r) := run c (k u) w1 in
          (w', CallUpdateTable table update_fields :: calls, r)
      | (w1, Raise e) => (w1, [CallUpdateTable table update_fields], Raise e)
      end
  | ReadCsv csv_path k =>
      match read_csv c w csv_path with
      | Ok rows =>
          let '(w', calls, r) := run c (k rows) w in
          (w', CallReadCsv csv_path :: calls, r)
      | Raise e => (w, [CallReadCsv csv_path], Raise e)
      end
  end.

(** The `update_table` calls of a run. *)
Definition update_calls (calls : list Call) : list (Table * list string) :=
  omap (λ call, match call with
                | CallUpdateTable table update_fields =>
                    Some (table, update_fields)
                | _ => None
                end) calls.

(** `main` selects the driver by the mode argument. *)
Inductive Operation :=
| Copy (source_table_id target_table_id : string)
| Upload (csv_path target_table_id : string).

Definition target_of (op : Operation) : string :=
  match op with
  | Copy _ target_table_id => target_table_id
  | Upload _ target_table_id => target_table_id
  end.

Definition perform (is_struct : string → bool) (op : Operation) : Prog unit :=
  match op with
  | Copy source_table_id target_table_id =>
      copy_field_descriptions is_struct source_table_id target_table_id
  | Upload csv_path target_table_id =>
      upload_fields_descriptions_from_csv is_struct csv_path target_table_id
  end.

(* --------------------------------------------------------------------- *)
(* A reference schema store                                              *)
(* --------------------------------------------------------------------- *)

(** The stored table after `update_table(table, update_fields)`: only the
    attributes named in `update_fields` are taken from `table`. *)
Definition patch_table (stored table : Table) (update_fields : list string)
    : Table :=
  mkTable (full_table_id stored)
    (if bool_decide ("schema" ∈ update_fields)
     then schema table else schema stored)
    (filter (λ kv, kv.1 ∈ update_fields) (properties table)
     ∪ filter (λ kv, kv.1 ∉ update_fields) (properties stored)).

(** Modelled from the spec: the Schema Store Client of section 6, which is
    not part of this repository.  `fetch` fails with a not-found error when
    the identifier does not resolve; `persist` writes the attributes marked
    for update and leaves every other remote attribute as it is.  The world
    is the stored tables by identifier and the csv files by path. *)
Record Store := mkStore {
  tables : gmap string Table;
  files : gmap string (list (list string))
}.

Definition store_client : Client Store :=
  mkClient Store
    (λ w table_id,
       match tables w !! table_id with
       | Some table => Ok table
       | None => Raise (ClientError "NotFound")
       end)
    (λ w table update_fields,
       match tables w !! full_table_id table with
       | Some stored =>
           (mkStore (<[full_table_id table :=
                         patch_table stored table update_fields]> (tables w))
                    (files w),
            Ok tt)
       | None => (w, Raise (ClientError "NotFound"))
       end)
    (λ w csv_path,
       match files w !! csv_path with
       | Some rows => Ok rows
       | None => Raise (ClientError "FileNotFoundError")
       end).

(* --------------------------------------------------------------------- *)
(* Vocabulary of the properties                                          *)
(* --------------------------------------------------------------------- *)

(** The fields of the tree under [f], each with its qualified path, [f]
    first and then its descendants in order: root fields go by their own
    name, nested fields by the parent's path, a dot and their own name. *)
Fixpoint walk (path : string) (f : SchemaField) : list (string * SchemaField) :=
  (path, f) :: flat_map (λ c, walk (qualify path (name c)) c) (fields f).

Definition schema_fields (schema : list SchemaField)
    : list (string * SchemaField) :=
  flat_map (λ f, walk (name f) f) schema.

(** The qualified paths of a schema, one per field, with repetitions. *)
Definition paths (schema : list SchemaField) : list string :=
  (schema_fields schema).*1.

(** A field with every description of its tree erased: what is left is the
    name, type and mode of each field, their order and their nesting. *)
Fixpoint shape (f : SchemaField) : SchemaField :=
  mkSchemaField (name f) (field_type f) (mode f) None (map shape (fields f)).

(** Only record-typed fields have nested fields. *)
Fixpoint wf_field (is_struct : string → bool) (f : SchemaField) : bool :=
  (is_struct (field_type f) || bool_decide (fields f = []))
  && forallb (wf_field is_struct) (fields f).

Definition wf_schema (is_struct : string → bool) (schema : list SchemaField)
    : bool :=
  forallb (wf_field is_struct) schema.

(** The description a field at [path] ends up with. *)
Definition new_description (descriptions : Descriptions) (path : string)
    (d : option string) : option string :=
  match descriptions !! path with
  | Some v => if truthy v then v else d
  | None => d
  end.

(** `_update_field` without its exceptions, on the dictionaries. *)
Fixpoint update_api (descriptions : Descriptions) (path : string)
    (a : ApiField) : ApiField :=
  mkApiField (api_name a) (api_type a) (api_mode a)
    (new_description descriptions path (api_description a))
    (match api_fields a with
     | Some nested =>
         Some (map (λ c, update_api descriptions
                           (qualify path (api_name c)) c) nested)
     | None => None
     end).

(** The merge as section 4.2 of the specification words it: rebuild the
    tree, replacing the description of a field when the mapping has a
    non-empty value at its qualified path. *)
Fixpoint merge_field (descriptions : Descriptions) (path : string)
    (f : SchemaField) : SchemaField :=
  mkSchemaField (name f) (field_type f) (mode f)
    (new_description descriptions path (description f))
    (map (λ c, merge_field descriptions (qualify path (name c)) c) (fields f)).

Definition merge (descriptions : Descriptions) (schema : list SchemaField)
    : list SchemaField :=
  map (λ f, merge_field descriptions (name f) f) schema.

(** A field after a round trip through its API representation. *)
Definition round_trip (is_struct : string → bool) (f : SchemaField)
    : SchemaField :=
  from_api_repr (to_api_repr is_struct f).

(** The entry a field contributes to the flattened dictionary. *)
Definition entry_of (pf : string * SchemaField) : string * option string :=
  (pf.1, description pf.2).

(** `descriptions[key] = value`, as a step of a fold. *)
Definition setitem (d : Descriptions) (kv : string * option string)
    : Descriptions :=
  <[kv.1 := kv.2]> d.

(** The merged field at a position is the merge of the field that was
    there, under the same path. *)
Definition merge_entry (descriptions : Descriptions)
    (pf : string * SchemaField) : string * SchemaField :=
  (pf.1, merge_field descriptions pf.1 pf.2).

(** The entries a worklist still has to contribute. *)
Definition pending (fields_to_process : list (string * SchemaField))
    : list (string * option string) :=
  flat_map (λ entry, map entry_of (walk entry.1 entry.2)) fields_to_process.

(** The merged schema `_update_table` computes for a fetched table. *)
Definition merged_schema (is_struct : string → bool) (target_table : Table)
    (M : Descriptions) : list SchemaField :=
  merge M (map (round_trip is_struct) (schema target_table)).

(** The csv rows of a list of (path, description) pairs, two cells each. *)
Definition csv_rows (pairs : list (string * string)) : list (list string) :=
  map (λ pair, [pair.1; pair.2]) pairs.

(** The dictionary entry of a (path, description) row. *)
Definition csv_entry (pair : string * string) : string * option string :=
  (pair.1, Some pair.2).

(** A name without the separator of qualified paths. *)
Fixpoint dot_free (s : string) : bool :=
  match s with
  | EmptyString => true
  | String a rest => negb (Ascii.eqb a "."%char) && dot_free rest
  end.

(** The data model's invariant on a group of siblings: names are unique
    among them, and none holds the separator. *)
Definition sibling_names_ok (siblings : list SchemaField) : bool :=
  forallb (λ f, dot_free (name f)) siblings
  && bool_decide (NoDup (map name siblings)).

Fixpoint names_ok_field (f : SchemaField) : bool :=
  sibling_names_ok (fields f) && forallb names_ok_field (fields f).

Definition names_ok (schema : list SchemaField) : bool :=
  sibling_names_ok schema && forallb names_ok_field schema.

(** What may follow a name in a qualified path: nothing, or a dot and more. *)
Definition path_rest (t : string) : Prop :=
  t = "" ∨ ∃ s, t = String "."%char s.

(** A run that persists at most once and last, that leaves the world alone
    unless it persists, and that ends in the exception of a failed fetch
    without persisting. *)
Definition persist_is_terminal {W A} (c : Client W) (w w' : W)
    (calls : list Call) (r : Result A) : Prop :=
  (∀ id e, CallGetTable id ∈ calls → get_table c w id = Raise e →
           r = Raise e ∧ update_calls calls = [] ∧ w' = w)
  ∧ (length (update_calls calls) ≤ 1)%nat
  ∧ (∀ table update_fields,
       CallUpdateTable table update_fields ∈ calls →
       last calls = Some (CallUpdateTable table update_fields))
  ∧ (update_calls calls = [] → w' = w).

(* --------------------------------------------------------------------- *)
(* The tables of tests/bigquery_description_manager_test.py              *)
(* --------------------------------------------------------------------- *)

(** The record types of the client library. *)
Definition is_record (field_type : string) : bool :=
  String.eqb field_type "RECORD" || String.eqb field_type "STRUCT".

Definition source_table_id : string :=
  "project_name.dataset_name.source_table".
Definition target_table_id : string :=
  "other_project_name.other_dataset_name.target_table".

(** An identifier `patched_get_table` does not serve. *)
Definition missing_table_id : string :=
  "project_name.dataset_name.missing_table".

Definition source_schema : list SchemaField :=
  [ mkSchemaField "clientId" "STRING" "NULLABLE"
      (Some "Unhashed version of the Client ID for a given user associated with any given visit/session.") [];
    mkSchemaField "fullVisitorId" "STRING" "NULLABLE"
      (Some "The unique visitor ID (also known as client ID).") [];
    mkSchemaField "visitNumber" "STRING" "NULLABLE"
      (Some "The session number for this user. If this is the first session, then this is set to 1.") [];
    mkSchemaField "totals" "RECORD" "NULLABLE"
      (Some "This section contains aggregate values across the session.")
      [ mkSchemaField "hits" "INTEGER" "NULLABLE"
          (Some "Total number of hits within the session.") [];
        mkSchemaField "pageviews" "INTEGER" "NULLABLE"
          (Some "Total number of pageviews within the session.") [];
        mkSchemaField "screenviews" "INTEGER" "NULLABLE"
          (Some "Total number of screenviews within the session.") [] ] ].

Definition target_schema : list SchemaField :=
  [ mkSchemaField "clientId" "STRING" "NULLABLE" None [];
    mkSchemaField "fullVisitorId" "STRING" "NULLABLE" None [];
    mkSchemaField "totals" "RECORD" "NULLABLE" None
      [ mkSchemaField "hits" "INTEGER" "NULLABLE" None [];
        mkSchemaField "pageviews" "INTEGER" "NULLABLE" None [] ] ].

Definition expected_schema : list SchemaField :=
  [ mkSchemaField "clientId" "STRING" "NULLABLE"
      (Some "Unhashed version of the Client ID for a given user associated with any given visit/session.") [];
    mkSchemaField "fullVisitorId" "STRING" "NULLABLE"
      (Some "The unique visitor ID (also known as client ID).") [];
    mkSchemaField "totals" "RECORD" "NULLABLE"
      (Some "This section contains aggregate values across the session.")
      [ mkSchemaField "hits" "INTEGER" "NULLABLE"
          (Some "Total number of hits within the session.") [];
        mkSchemaField "pageviews" "INTEGER" "NULLABLE"
          (Some "Total number of pageviews within the session.") [] ] ].

(** What `patched_get_table` serves. *)
Definition test_store : Store :=
  mkStore
    (<[source_table_id := mkTable source_table_id source_schema ∅]>
       (<[target_table_id := mkTable target_table_id target_schema
                               {[ "friendly_name" := "target" ]}]> ∅))
    ∅.

(** A csv file with a header row, as section 6 of the specification
    describes the input of the upload mode. *)
Definition csv_data : list (string * string) :=
  [ ("clientId", "desc A"); ("totals.hits", "desc B") ].

Definition csv_with_header : list (list string) :=
  ["name"; "description"] :: csv_rows csv_data.

Definition csv_file : string := "descriptions.csv".

(** A target with a field that goes by the first cell of the header. *)
Definition upload_schema : list SchemaField :=
  [ mkSchemaField "name" "STRING" "NULLABLE" None [];
    mkSchemaField "clientId" "STRING" "NULLABLE" None [];
    mkSchemaField "extra" "STRING" "NULLABLE" (Some "keep") [];
    mkSchemaField "totals" "RECORD" "NULLABLE" None
      [ mkSchemaField "hits" "INTEGER" "NULLABLE" None [] ] ].

Definition upload_store : Store :=
  mkStore
    (<[target_table_id := mkTable target_table_id upload_schema ∅]> ∅)
    (<[csv_file := csv_with_header]> ∅).

(** A record with a description of its own and a described child. *)
Definition nested_target : list SchemaField :=
  [ mkSchemaField "totals" "RECORD" "NULLABLE" None
      [ mkSchemaField "hits" "INTEGER" "NULLABLE" None [] ] ].

Definition nested_descriptions : Descriptions :=
  <["totals" := Some "Aggregates"]>
    (<["totals.hits" := Some "Total hits"]> ∅).

(* --------------------------------------------------------------------- *)
(* main                                                                  *)
(* --------------------------------------------------------------------- *)

(** The namespace `parser.parse_args()` returns for the arguments `main`
    declares: `mode` is one of the choices, `--target_table_id` is
    required, `--source_table_id` and `--csv_path` are None when not
    given, `--debug` is a flag. *)
Record Namespace := mkNamespace {
  arg_mode : string;
  arg_source_table_id : option string;
  arg_target_table_id : string;
  arg_csv_path : option string;
  arg_debug : bool
}.

Inductive LogLevel := DEBUG | INFO.

(** How `main` ends: `parser.error(message)` leaves the process before
    anything else is done; otherwise logging is set up, the client is made
    and the selected driver runs. *)
Inductive Started :=
| UsageError (message : string)
| Running (log_level : LogLevel) (p : Prog unit).

(** The argument of a driver call: a string once the checks of `main` have
    passed; handing None to the client is a TypeError there. *)
Definition with_argument (argument : option string)
    (k : string → Prog unit) : Prog unit :=
  match argument with
  | Some value => k value
  | None => Throw (ClientError "TypeError")
  end.

(** `main()`, from the parsed arguments on. *)
Definition main (is_struct : string → bool) (args : Namespace) : Started :=
  if String.eqb (arg_mode args) "copy"
     && negb (truthy (arg_source_table_id args))
  then UsageError "source table id is missing for copy"
  else if String.eqb (arg_mode args) "upload"
          && negb (truthy (arg_csv_path args))
  then UsageError "csv path is missing for upload"
  else
    let log_level := if arg_debug args then DEBUG else INFO in
    Running log_level
      (if String.eqb (arg_mode args) "copy"
       then with_argument (arg_source_table_id args) (λ source,
              copy_field_descriptions is_struct source
                (arg_target_table_id args))
       else if String.eqb (arg_mode args) "upload"
       then with_argument (arg_csv_path args) (λ csv_path,
              upload_fields_descriptions_from_csv is_struct csv_path
                (arg_target_table_id args))
       else Return tt).

(** The first call of a driver, and the calls of a complete run. *)
Definition first_call (op : Operation) : Call :=
  match op with
  | Copy source_table_id _ => CallGetTable source_table_id
  | Upload csv_path _ => CallReadCsv csv_path
  end.

(** The entry of a row with two cells at least. *)
Definition row_entry (row : list string) : string * option string :=
  (default "" (row !! 0), row !! 1).

(** The mapping of two merges in a row: the non-empty entries of the
    second take over, the rest is the first. *)
Definition merge_maps (M1 M2 : Descriptions) : Descriptions :=
  filter (λ kv, truthy kv.2 = true) M2 ∪ M1.

(** A csv file with a row of one cell, and an empty csv file. *)
Definition short_row_store : Store :=
  mkStore
    (<[target_table_id := mkTable target_table_id upload_schema ∅]> ∅)
    (<[csv_file := [["clientId"; "desc A"]; ["totals.hits"]]]> ∅).

Definition empty_csv_store : Store :=
  mkStore
    (<[target_table_id := mkTable target_table_id upload_schema ∅]> ∅)
    (<[csv_file := []]> ∅).

(* ===================================================================== *)
(* Properties                                                            *)
(* ===================================================================== *)

(* --------------------------------------------------------------------- *)
(* Induction over nested fields                                          *)
(* --------------------------------------------------------------------- *)

Lemma SchemaField_nested_ind (P : SchemaField → Prop) :
  (∀ n t m d fs, Forall P fs → P (mkSchemaField n t m d fs)) →
  ∀ f, P f.
Proof.
  intros step. fix IH 1. intros [n t m d fs]. apply step.
  induction fs as [|c fs IHfs]; constructor; [apply IH | exact IHfs].
Qed.

Lemma ApiField_nested_ind (P : ApiField → Prop) :
  (∀ n t m d, P (mkApiField n t m d None)) →
  (∀ n t m d fs, Forall P fs → P (mkApiField n t m d (Some fs))) →
  ∀ a, P a.
Proof.
  intros leaf node. fix IH 1. intros [n t m d [fs|]]; [|apply leaf].
  apply node. induction fs as [|c fs IHfs]; constructor; [apply IH | exact IHfs].
Qed.

(* --------------------------------------------------------------------- *)
(* _update_field and _get_new_schema compute the merge                   *)
(* --------------------------------------------------------------------- *)

Lemma mapM_ok {A B} (f : A → Result B) (g : A → B) (l : list A) :
  Forall (λ x, f x = Ok (g x)) l → mapM f l = Ok (map g l).
Proof.
  induction 1 as [|x l Hx _ IH]; [done|].
  cbn. rewrite Hx. cbn. fold (mapM f). rewrite IH. done.
Qed.

(** The guard `name in descriptions and descriptions[name]` followed by
    the subscript: split on what the dictionary holds at the path. *)
Ltac case_lookup descriptions path :=
  unfold contains, getitem, new_description;
  let v := fresh "v" in
  destruct (descriptions !! path) as [v|];
  [ rewrite bool_decide_eq_true_2 by eauto; cbn; destruct (truthy v); cbn
  | rewrite bool_decide_eq_false_2 by (intros [? ?]; done); cbn ].

Lemma _update_field_ok (a : ApiField) :
  ∀ path descriptions,
    _update_field a path descriptions = Ok (update_api descriptions path a).
Proof.
  induction a as [n t m d|n t m d fs IH] using ApiField_nested_ind;
    intros path descriptions;
    cbn [_update_field update_api api_name api_type api_mode
         api_description api_fields].
  - by case_lookup descriptions path.
  - rewrite (mapM_ok _ (λ c, update_api descriptions
                               (qualify path (api_name c)) c)).
    2:{ eapply Forall_impl; [exact IH|]. intros c Hc. apply Hc. }
    by case_lookup descriptions path.
Qed.

Section MergeFacts.

Variable is_struct : string → bool.

Lemma from_update_to (descriptions : Descriptions) (f : SchemaField) :
  ∀ path,
    from_api_repr (update_api descriptions path (to_api_repr is_struct f))
    = merge_field descriptions path (round_trip is_struct f).
Proof.
  induction f as [n t m d fs IH] using SchemaField_nested_ind; intros path.
  unfold round_trip. cbn. destruct (is_struct t); cbn; [|done].
  f_equal. rewrite !map_map. apply map_ext_Forall.
  eapply Forall_impl; [exact IH|]. intros c Hc. cbn.
  rewrite Hc. unfold round_trip. by destruct c.
Qed.

Lemma _get_new_schema_merge (schema : list SchemaField)
    (descriptions : Descriptions) :
  _get_new_schema is_struct schema descriptions
  = Ok (merge descriptions (map (round_trip is_struct) schema)).
Proof.
  unfold _get_new_schema, merge.
  rewrite (mapM_ok _ (λ a, update_api descriptions (api_name a) a)).
  2:{ apply Forall_forall. intros a _. apply _update_field_ok. }
  cbn. f_equal. rewrite !map_map. apply map_ext. intros f.
  rewrite from_update_to. unfold round_trip. by destruct f.
Qed.

Lemma round_trip_wf (f : SchemaField) :
  wf_field is_struct f = true → round_trip is_struct f = f.
Proof.
  induction f as [n t m d fs IH] using SchemaField_nested_ind.
  unfold round_trip. cbn. intros [Hs Hall]%andb_prop.
  fold (wf_field is_struct) in Hall.
  destruct (is_struct t); cbn in *.
  - f_equal. rewrite map_map. rewrite <- (map_id fs) at 2.
    apply map_ext_Forall. rewrite forallb_forall in Hall.
    rewrite Forall_forall in IH |- *. intros c Hc.
    apply (IH c Hc). apply Hall. by apply list_elem_of_In.
  - apply bool_decide_eq_true in Hs. by subst.
Qed.

Lemma round_trip_wf_schema (schema : list SchemaField) :
  wf_schema is_struct schema = true →
  map (round_trip is_struct) schema = schema.
Proof.
  unfold wf_schema. rewrite forallb_forall. intros Hall.
  rewrite <- (map_id schema) at 2. apply map_ext_in.
  intros f Hf. by apply round_trip_wf, Hall.
Qed.

Lemma _get_new_schema_wf (schema : list SchemaField)
    (descriptions : Descriptions) :
  wf_schema is_struct schema = true →
  _get_new_schema is_struct schema descriptions
  = Ok (merge descriptions schema).
Proof.
  intros Hwf. by rewrite _get_new_schema_merge, round_trip_wf_schema.
Qed.

End MergeFacts.

(* --------------------------------------------------------------------- *)
(* The merge, field by field                                             *)
(* --------------------------------------------------------------------- *)

Lemma name_merge_field descriptions path f :
  name (merge_field descriptions path f) = name f.
Proof. by destruct f. Qed.

Lemma flat_map_ext_Forall {A B} (f g : A → list B) (l : list A) :
  Forall (λ x, f x = g x) l → flat_map f l = flat_map g l.
Proof. induction 1 as [|x l Hx _ IH]; cbn; [done|]. by rewrite Hx, IH. Qed.

Lemma flat_map_map {A B C} (f : B → list C) (g : A → B) (l : list A) :
  flat_map f (map g l) = flat_map (λ x, f (g x)) l.
Proof. induction l as [|x l IH]; cbn; [done|]. by rewrite IH. Qed.

Lemma map_flat_map {A B C} (f : A → list B) (g : B → C) (l : list A) :
  map g (flat_map f l) = flat_map (λ x, map g (f x)) l.
Proof. induction l as [|x l IH]; cbn; [done|]. by rewrite map_app, IH. Qed.

Lemma walk_merge descriptions f :
  ∀ path,
    walk path (merge_field descriptions path f)
    = map (merge_entry descriptions) (walk path f).
Proof.
  induction f as [n t m d fs IH] using SchemaField_nested_ind; intros path.
  cbn. unfold merge_entry at 1. cbn. f_equal.
  rewrite flat_map_map, map_flat_map. apply flat_map_ext_Forall.
  eapply Forall_impl; [exact IH|]. intros c Hc. cbn.
  by rewrite name_merge_field, Hc.
Qed.

Lemma schema_fields_merge descriptions schema :
  schema_fields (merge descriptions schema)
  = map (merge_entry descriptions) (schema_fields schema).
Proof.
  unfold schema_fields, merge. rewrite flat_map_map, map_flat_map.
  apply flat_map_ext_Forall, Forall_forall. intros f _.
  by rewrite name_merge_field, walk_merge.
Qed.

Lemma shape_merge_field descriptions f :
  ∀ path, shape (merge_field descriptions path f) = shape f.
Proof.
  induction f as [n t m d fs IH] using SchemaField_nested_ind; intros path.
  cbn. f_equal. rewrite map_map. apply map_ext_Forall.
  eapply Forall_impl; [exact IH|]. intros c Hc. apply Hc.
Qed.

Lemma shape_merge descriptions schema :
  map shape (merge descriptions schema) = map shape schema.
Proof.
  unfold merge. rewrite map_map. apply map_ext. intros f.
  apply shape_merge_field.
Qed.

Lemma new_description_idem descriptions path d :
  new_description descriptions path (new_description descriptions path d)
  = new_description descriptions path d.
Proof.
  unfold new_description. destruct (descriptions !! path) as [v|]; [|done].
  by destruct (truthy v).
Qed.

Lemma merge_field_idem descriptions f :
  ∀ path,
    merge_field descriptions path (merge_field descriptions path f)
    = merge_field descriptions path f.
Proof.
  induction f as [n t m d fs IH] using SchemaField_nested_ind; intros path.
  cbn. rewrite new_description_idem. f_equal.
  rewrite map_map. apply map_ext_Forall.
  eapply Forall_impl; [exact IH|]. intros c Hc. cbn.
  by rewrite name_merge_field, Hc.
Qed.

Lemma merge_idem descriptions schema :
  merge descriptions (merge descriptions schema) = merge descriptions schema.
Proof.
  unfold merge. rewrite map_map. apply map_ext. intros f.
  by rewrite name_merge_field, merge_field_idem.
Qed.

(** The merge reads the mapping at the paths of the tree and nowhere else. *)
Lemma merge_field_ext (M M' : Descriptions) f :
  ∀ path,
    (∀ q, q ∈ (walk path f).*1 → M !! q = M' !! q) →
    merge_field M path f = merge_field M' path f.
Proof.
  induction f as [n t m d fs IH] using SchemaField_nested_ind;
    intros path Hagree.
  cbn. f_equal.
  - unfold new_description. rewrite (Hagree path); [done|]. cbn. left.
  - apply map_ext_Forall. rewrite Forall_forall in IH |- *.
    intros c Hc. apply (IH c Hc). intros q Hq. apply Hagree.
    cbn. right. rewrite list_elem_of_fmap in Hq |- *.
    destruct Hq as [pf [-> Hpf]]. exists pf. split; [done|].
    apply list_elem_of_In, in_flat_map. exists c.
    split; by apply list_elem_of_In.
Qed.

Lemma merge_ext (M M' : Descriptions) schema :
  (∀ q, q ∈ paths schema → M !! q = M' !! q) →
  merge M schema = merge M' schema.
Proof.
  intros Hagree. unfold merge. apply map_ext_in. intros f Hf.
  apply merge_field_ext. intros q Hq. apply Hagree.
  unfold paths, schema_fields.
  rewrite list_elem_of_fmap in Hq |- *.
  destruct Hq as [pf [-> Hpf]]. exists pf. split; [done|].
  apply list_elem_of_In, in_flat_map. exists f.
  split; [done | by apply list_elem_of_In].
Qed.

Lemma new_description_empty path d : new_description ∅ path d = d.
Proof. unfold new_description. by rewrite lookup_empty. Qed.

Lemma merge_field_empty f : ∀ path, merge_field ∅ path f = f.
Proof.
  induction f as [n t m d fs IH] using SchemaField_nested_ind; intros path.
  cbn. rewrite new_description_empty. f_equal.
  rewrite <- (map_id fs) at 2. apply map_ext_Forall.
  eapply Forall_impl; [exact IH|]. intros c Hc. apply Hc.
Qed.

Lemma merge_empty schema : merge ∅ schema = schema.
Proof.
  unfold merge. rewrite <- (map_id schema) at 2. apply map_ext.
  intros f. apply merge_field_empty.
Qed.

Lemma forallb_map_Forall {A B} (p : B → bool) (q : A → bool) (g : A → B)
    (l : list A) :
  Forall (λ x, p (g x) = q x) l → forallb p (map g l) = forallb q l.
Proof. induction 1 as [|x l Hx _ IH]; cbn; [done|]. by rewrite Hx, IH. Qed.

Lemma forallb_const_true {A} (l : list A) : forallb (λ _, true) l = true.
Proof. induction l as [|x l IH]; [done | exact IH]. Qed.

Lemma wf_field_merge_field is_struct descriptions f :
  ∀ path,
    wf_field is_struct (merge_field descriptions path f)
    = wf_field is_struct f.
Proof.
  induction f as [n t m d fs IH] using SchemaField_nested_ind; intros path.
  cbn. fold (wf_field is_struct). f_equal.
  - f_equal. by destruct fs.
  - apply forallb_map_Forall.
    eapply Forall_impl; [exact IH|]. intros c Hc. apply Hc.
Qed.

Lemma wf_schema_merge is_struct descriptions schema :
  wf_schema is_struct (merge descriptions schema)
  = wf_schema is_struct schema.
Proof.
  unfold wf_schema, merge. apply forallb_map_Forall, Forall_forall.
  intros f _. apply wf_field_merge_field.
Qed.

Lemma wf_field_round_trip is_struct f :
  wf_field is_struct (round_trip is_struct f) = true.
Proof.
  induction f as [n t m d fs IH] using SchemaField_nested_ind.
  unfold round_trip. cbn. fold (wf_field is_struct).
  destruct (is_struct t) eqn:E; cbn; [|done].
  rewrite map_map. rewrite (forallb_map_Forall _ (λ _, true)).
  - apply forallb_const_true.
  - eapply Forall_impl; [exact IH|]. intros c Hc. apply Hc.
Qed.

Lemma wf_schema_round_trip is_struct schema :
  wf_schema is_struct (map (round_trip is_struct) schema) = true.
Proof.
  unfold wf_schema. rewrite (forallb_map_Forall _ (λ _, true)).
  - apply forallb_const_true.
  - apply Forall_forall. intros f _. apply wf_field_round_trip.
Qed.

Lemma paths_round_trip is_struct f :
  ∀ path q,
    q ∈ (walk path (round_trip is_struct f)).*1 → q ∈ (walk path f).*1.
Proof.
  induction f as [n t m d fs IH] using SchemaField_nested_ind.
  intros path q. unfold round_trip. cbn.
  destruct (is_struct t); cbn.
  - rewrite !elem_of_cons. intros [->|Hq]; [by left|right].
    rewrite list_elem_of_fmap in Hq |- *.
    destruct Hq as [pf [-> Hpf]].
    apply list_elem_of_In, in_flat_map in Hpf.
    destruct Hpf as [c' [Hc' Hpf]].
    apply in_map_iff in Hc'. destruct Hc' as [a [<- Ha]].
    apply in_map_iff in Ha. destruct Ha as [c [<- Hc]].
    rewrite Forall_forall in IH.
    assert (Hin : pf.1 ∈ (walk (qualify path (name c)) c).*1).
    { apply (IH c); [by apply list_elem_of_In|].
      apply list_elem_of_fmap. exists pf. split; [done|].
      apply list_elem_of_In. unfold round_trip.
      by replace (name c) with
        (name (from_api_repr (to_api_repr is_struct c))) by by destruct c. }
    apply list_elem_of_fmap in Hin. destruct Hin as [pf' [Heq Hpf']].
    exists pf'. split; [done|].
    apply list_elem_of_In, in_flat_map. exists c.
    split; [done | by apply list_elem_of_In].
  - rewrite !elem_of_cons. intros [->|Hq]; [by left|].
    by apply elem_of_nil in Hq.
Qed.

Lemma paths_round_trip_schema is_struct schema q :
  q ∈ paths (map (round_trip is_struct) schema) → q ∈ paths schema.
Proof.
  unfold paths, schema_fields. rewrite !list_elem_of_fmap.
  intros [pf [-> Hpf]].
  apply list_elem_of_In, in_flat_map in Hpf. destruct Hpf as [f' [Hf' Hpf]].
  apply in_map_iff in Hf'. destruct Hf' as [f [<- Hf]].
  assert (Hin : pf.1 ∈ (walk (name f) f).*1).
  { apply (paths_round_trip is_struct).
    apply list_elem_of_fmap. exists pf. split; [done|].
    apply list_elem_of_In. unfold round_trip in *.
    by replace (name f) with
      (name (from_api_repr (to_api_repr is_struct f))) by by destruct f. }
  apply list_elem_of_fmap in Hin. destruct Hin as [pf' [Heq Hpf']].
  exists pf'. split; [done|].
  apply list_elem_of_In, in_flat_map. exists f.
  split; [done | by apply list_elem_of_In].
Qed.

(* --------------------------------------------------------------------- *)
(* The test of the repository                                            *)
(* --------------------------------------------------------------------- *)

Example test_get_descriptions :
  run store_client
      (copy_field_descriptions is_record source_table_id target_table_id)
      test_store
  = (mkStore
       (<[target_table_id :=
            mkTable target_table_id expected_schema
                    {[ "friendly_name" := "target" ]}]> (tables test_store))
       ∅,
     [ CallGetTable source_table_id;
       CallGetTable target_table_id;
       CallUpdateTable
         (mkTable target_table_id expected_schema
                  {[ "friendly_name" := "target" ]})
         ["schema"] ],
     Ok tt).
Proof. vm_compute. reflexivity. Qed.

(* --------------------------------------------------------------------- *)
(* Claims on the merge                                                   *)
(* --------------------------------------------------------------------- *)

(** C2 (shape preservation).  For every well-formed target schema and
    every mapping, `_get_new_schema` returns a schema that differs from the
    target in descriptions only: erasing the descriptions on both sides
    leaves the same fields, in the same order and nesting, with the same
    names, types and modes, and so the same number of fields at the same
    qualified paths. *)
Theorem merge_preserves_shape (is_struct : string → bool)
    (T : list SchemaField) (M : Descriptions) :
  wf_schema is_struct T = true →
  ∃ T', _get_new_schema is_struct T M = Ok T'
        ∧ map shape T' = map shape T
        ∧ length (schema_fields T') = length (schema_fields T)
        ∧ paths T' = paths T.
Proof.
  intros Hwf. exists (merge M T). rewrite _get_new_schema_wf by done.
  split; [done|]. split; [apply shape_merge|].
  unfold paths. rewrite schema_fields_merge. split.
  - by rewrite length_map.
  - rewrite <- list_fmap_compose. apply list_fmap_ext. by intros i [q f] _.
Qed.

Lemma merge_preserves_shape_witness :
  wf_schema is_record target_schema = true
  ∧ ∃ T', _get_new_schema is_record target_schema
            (_get_descriptions_from_schema source_schema) = Ok T'
          ∧ map shape T' = map shape target_schema
          ∧ length (schema_fields T') = length (schema_fields target_schema)
          ∧ paths T' = paths target_schema.
Proof.
  split; [reflexivity|].
  apply (merge_preserves_shape is_record target_schema); reflexivity.
Defined.

Lemma new_description_rule (M : Descriptions) (path : string)
    (d : option string) :
  new_description M path d
  = match M !! path with
    | Some (Some (String a rest)) => Some (String a rest)
    | _ => d
    end.
Proof.
  unfold new_description. by destruct (M !! path) as [[[|a rest]|]|].
Qed.

Lemma description_merge_field (M : Descriptions) (path : string)
    (f : SchemaField) :
  description (merge_field M path f) = new_description M path (description f).
Proof. by destruct f. Qed.

(** C1, amended (merge overwrite).  For every well-formed target schema T,
    every mapping M and every field of T at a qualified path P where M
    holds a non-empty string, the field at the same position and path of
    the merged schema has that string as its description and the name,
    type and mode of the original field.  Its children are the original
    children in the original order, with their names, types, modes and
    nesting; they are not left as they were: every field of the tree under
    P, at its own qualified path, has the non-empty string M holds at that
    path when M holds one, and the description it had otherwise. *)
Theorem merge_overwrite (is_struct : string → bool)
    (T : list SchemaField) (M : Descriptions) :
  wf_schema is_struct T = true →
  ∃ T', _get_new_schema is_struct T M = Ok T'
        ∧ ∀ (i : nat) (P : string) (f : SchemaField) (d : string),
            schema_fields T !! i = Some (P, f) →
            M !! P = Some (Some d) →
            d ≠ "" →
            ∃ f', schema_fields T' !! i = Some (P, f')
                  ∧ description f' = Some d
                  ∧ name f' = name f
                  ∧ field_type f' = field_type f
                  ∧ mode f' = mode f
                  ∧ map shape (fields f') = map shape (fields f)
                  ∧ Forall2
                      (λ below below',
                         below'.1 = below.1
                         ∧ description below'.2
                           = match M !! below.1 with
                             | Some (Some (String a rest)) =>
                                 Some (String a rest)
                             | _ => description below.2
                             end)
                      (walk P f) (walk P f').
Proof.
  intros Hwf. exists (merge M T). rewrite _get_new_schema_wf by done.
  split; [done|]. intros i P f d Hi HM Hd.
  exists (merge_field M P f). rewrite schema_fields_merge.
  rewrite list_lookup_fmap, Hi. split; [done|].
  split; [|split; [|split; [|split; [|split]]]].
  - rewrite description_merge_field, new_description_rule, HM. by destruct d.
  - by destruct f.
  - by destruct f.
  - by destruct f.
  - destruct f as [n t m d0 fs]. cbn.
    rewrite map_map. apply map_ext. intros c. apply shape_merge_field.
  - rewrite walk_merge. apply Forall2_fmap_r, Forall_Forall2_diag.
    apply Forall_forall. intros [q g] _. unfold merge_entry. cbn.
    split; [done|].
    by rewrite description_merge_field, new_description_rule.
Qed.

Lemma merge_overwrite_witness :
  wf_schema is_record nested_target = true
  ∧ ∃ T', _get_new_schema is_record nested_target nested_descriptions = Ok T'
          ∧ ∀ (i : nat) (P : string) (f : SchemaField) (d : string),
              schema_fields nested_target !! i = Some (P, f) →
              nested_descriptions !! P = Some (Some d) →
              d ≠ "" →
              ∃ f', schema_fields T' !! i = Some (P, f')
                    ∧ description f' = Some d
                    ∧ name f' = name f
                    ∧ field_type f' = field_type f
                    ∧ mode f' = mode f
                    ∧ map shape (fields f') = map shape (fields f)
                    ∧ Forall2
                        (λ below below',
                           below'.1 = below.1
                           ∧ description below'.2
                             = match nested_descriptions !! below.1 with
                               | Some (Some (String a rest)) =>
                                   Some (String a rest)
                               | _ => description below.2
                               end)
                        (walk P f) (walk P f').
Proof.
  split; [reflexivity|].
  apply (merge_overwrite is_record nested_target); reflexivity.
Defined.

(** The children of an overwritten record are merged, not wiped: a child
    without an entry in the mapping keeps its description next to a parent
    and a sibling that are given new ones. *)
Example merge_overwrite_keeps_other_children :
  _get_new_schema is_record
    [ mkSchemaField "totals" "RECORD" "NULLABLE" (Some "old")
        [ mkSchemaField "hits" "INTEGER" "NULLABLE" None [];
          mkSchemaField "pageviews" "INTEGER" "NULLABLE"
            (Some "keep me") [] ] ]
    nested_descriptions
  = Ok [ mkSchemaField "totals" "RECORD" "NULLABLE" (Some "Aggregates")
           [ mkSchemaField "hits" "INTEGER" "NULLABLE"
               (Some "Total hits") [];
             mkSchemaField "pageviews" "INTEGER" "NULLABLE"
               (Some "keep me") [] ] ].
Proof. vm_compute. reflexivity. Qed.

(** C1 as stated fails: with descriptions for the record `totals` and for
    its child `totals.hits`, the merged `totals` has the new description
    but its children are not those of the original field, the child has
    been described as well. *)
Lemma merge_overwrite_children_change :
  ¬ (∃ T', _get_new_schema is_record nested_target nested_descriptions = Ok T'
           ∧ ∀ (i : nat) (P : string) (f : SchemaField) (d : string),
               schema_fields nested_target !! i = Some (P, f) →
               nested_descriptions !! P = Some (Some d) →
               d ≠ "" →
               ∃ f', schema_fields T' !! i = Some (P, f')
                     ∧ description f' = Some d
                     ∧ name f' = name f
                     ∧ field_type f' = field_type f
                     ∧ mode f' = mode f
                     ∧ fields f' = fields f).
Proof.
  intros [T' [Hrun Hall]].
  vm_compute in Hrun. injection Hrun as <-.
  destruct (Hall 0 "totals"
              (mkSchemaField "totals" "RECORD" "NULLABLE" None
                 [mkSchemaField "hits" "INTEGER" "NULLABLE" None []])
              "Aggregates")
    as [f' [Hf' [_ [_ [_ [_ Hfields]]]]]]; [reflexivity..|done|].
  cbn in Hf'. injection Hf' as <-. discriminate Hfields.
Qed.

(** C3 (empty or missing value is no update).  For every well-formed
    target schema T, every mapping M and every field of T at a qualified
    path P, when P is not a key of M, or M holds None or the empty string
    at P, the field at the same position and path of the merged schema has
    the description of the original field: a description is never
    cleared. *)
Theorem merge_keeps_description (is_struct : string → bool)
    (T : list SchemaField) (M : Descriptions) :
  wf_schema is_struct T = true →
  ∃ T', _get_new_schema is_struct T M = Ok T'
        ∧ ∀ (i : nat) (P : string) (f : SchemaField),
            schema_fields T !! i = Some (P, f) →
            M !! P = None ∨ M !! P = Some None ∨ M !! P = Some (Some "") →
            ∃ f', schema_fields T' !! i = Some (P, f')
                  ∧ description f' = description f.
Proof.
  intros Hwf. exists (merge M T). rewrite _get_new_schema_wf by done.
  split; [done|]. intros i P f Hi HM.
  exists (merge_field M P f). rewrite schema_fields_merge.
  rewrite list_lookup_fmap, Hi. split; [done|].
  destruct f as [n t m d0 fs]. cbn. unfold new_description.
  by destruct HM as [-> | [-> | ->]].
Qed.

Lemma merge_keeps_description_witness :
  wf_schema is_record expected_schema = true
  ∧ ∃ T', _get_new_schema is_record expected_schema
            (<["clientId" := Some ""]> nested_descriptions) = Ok T'
          ∧ ∀ (i : nat) (P : string) (f : SchemaField),
              schema_fields expected_schema !! i = Some (P, f) →
              (<["clientId" := Some ""]> nested_descriptions) !! P = None
              ∨ (<["clientId" := Some ""]> nested_descriptions) !! P
                = Some None
              ∨ (<["clientId" := Some ""]> nested_descriptions) !! P
                = Some (Some "") →
              ∃ f', schema_fields T' !! i = Some (P, f')
                    ∧ description f' = description f.
Proof.
  split; [reflexivity|].
  apply (merge_keeps_description is_record expected_schema); reflexivity.
Defined.

Lemma merge_no_match (M : Descriptions) (schema : list SchemaField) :
  (∀ P, P ∈ paths schema → M !! P = None) → merge M schema = schema.
Proof.
  intros Hnone. rewrite <- (merge_empty schema) at 2.
  apply merge_ext. intros q Hq. by rewrite Hnone, lookup_empty.
Qed.

(** C5 (identity on the empty mapping and on absent paths).  For every
    well-formed schema T, `_get_new_schema` on the empty mapping returns T
    itself, and so it does on every mapping none of whose keys is the
    qualified path of a field of T. *)
Theorem merge_identity (is_struct : string → bool) (T : list SchemaField) :
  wf_schema is_struct T = true →
  _get_new_schema is_struct T ∅ = Ok T
  ∧ ∀ M : Descriptions,
      (∀ P, P ∈ paths T → M !! P = None) →
      _get_new_schema is_struct T M = Ok T.
Proof.
  intros Hwf. split.
  - by rewrite _get_new_schema_wf, merge_empty.
  - intros M Hnone. by rewrite _get_new_schema_wf, merge_no_match.
Qed.

Lemma merge_identity_witness :
  wf_schema is_record expected_schema = true
  ∧ _get_new_schema is_record expected_schema ∅ = Ok expected_schema
  ∧ ∀ M : Descriptions,
      (∀ P, P ∈ paths expected_schema → M !! P = None) →
      _get_new_schema is_record expected_schema M = Ok expected_schema.
Proof.
  split; [reflexivity|].
  apply (merge_identity is_record expected_schema); reflexivity.
Defined.

(** C9 (no failure on shape mismatch).  For every target schema T and
    every mapping M, `_get_new_schema` returns a schema and raises
    nothing, whatever the overlap of the keys of M with the paths of T; the
    result is the one obtained from M with every key that is not a path of
    T removed, so such keys are ignored. *)
Theorem merge_total (is_struct : string → bool)
    (T : list SchemaField) (M : Descriptions) :
  ∃ T', _get_new_schema is_struct T M = Ok T'
        ∧ _get_new_schema is_struct T
            (filter (λ kv, kv.1 ∈ paths T) M) = Ok T'.
Proof.
  eexists. split; [apply _get_new_schema_merge|].
  rewrite _get_new_schema_merge. f_equal. apply merge_ext.
  intros q Hq%paths_round_trip_schema.
  destruct (M !! q) as [v|] eqn:E.
  - by apply map_lookup_filter_Some.
  - apply map_lookup_filter_None. left. done.
Qed.

(** C10 (idempotence).  For every target schema T and every mapping M,
    merging M into the merged schema once more returns the merged schema
    unchanged. *)
Theorem merge_idempotent (is_struct : string → bool)
    (T : list SchemaField) (M : Descriptions) :
  ∃ T', _get_new_schema is_struct T M = Ok T'
        ∧ _get_new_schema is_struct T' M = Ok T'.
Proof.
  eexists. split; [apply _get_new_schema_merge|].
  rewrite _get_new_schema_wf.
  - by rewrite merge_idem.
  - by rewrite wf_schema_merge, wf_schema_round_trip.
Qed.

(* --------------------------------------------------------------------- *)
(* The worklist loop of _get_descriptions_from_schema                    *)
(* --------------------------------------------------------------------- *)

Lemma pop_snoc {A} (l : list A) (x : A) : pop (l ++ [x]) = Some (l, x).
Proof. induction l as [|y l IH]; [done|]. cbn. by rewrite IH. Qed.

(** One turn of the loop. *)
Lemma process_unfold_pop fields_to_process descriptions :
  process fields_to_process descriptions
  = match pop fields_to_process with
    | Some (rest, field) =>
        process (rest ++ nested_entries field)
                (<[field.1 := description field.2]> descriptions)
    | None => descriptions
    end.
Proof.
  rewrite process_equation_1.
  change (pop fields_to_process)
    with (proj1_sig (inspect (pop fields_to_process))) at 2.
  by destruct (inspect (pop fields_to_process)) as [[[rest field]|] e].
Qed.

Lemma process_nil descriptions : process [] descriptions = descriptions.
Proof. by rewrite process_unfold_pop. Qed.

Lemma process_snoc rest field descriptions :
  process (rest ++ [field]) descriptions
  = process (rest ++ nested_entries field)
            (<[field.1 := description field.2]> descriptions).
Proof. by rewrite process_unfold_pop, pop_snoc. Qed.

Lemma pending_app l1 l2 : pending (l1 ++ l2) = pending l1 ++ pending l2.
Proof. apply flat_map_app. Qed.

Lemma pending_nested field :
  pending [field] = entry_of field :: pending (nested_entries field).
Proof.
  destruct field as [path [n t m d fs]]. unfold pending, nested_entries.
  cbn. rewrite app_nil_r. f_equal.
  by rewrite map_flat_map, flat_map_map.
Qed.

Lemma field_size_pos f : 0 < field_size f.
Proof. destruct f. cbn. lia. Qed.

(** The loop stores the pending entries, each once, in some order. *)
Lemma process_foldl (n : nat) :
  ∀ fields_to_process descriptions,
    (worklist_size fields_to_process ≤ n)%nat →
    ∃ l, l ≡ₚ pending fields_to_process
         ∧ process fields_to_process descriptions = foldl setitem descriptions l.
Proof.
  induction n as [|n IH]; intros wl acc Hsize.
  - destruct wl as [|[p f] wl].
    + exists []. by rewrite process_nil.
    + unfold worklist_size in Hsize. cbn in Hsize.
      pose proof (field_size_pos f). lia.
  - destruct wl as [|field rest _] using rev_ind.
    + exists []. by rewrite process_nil.
    + rewrite process_snoc.
      destruct (IH (rest ++ nested_entries field)
                   (<[field.1 := description field.2]> acc))
        as [l [Hperm Hrun]].
      { rewrite worklist_size_app in Hsize |- *.
        pose proof (worklist_size_nested field).
        assert (worklist_size [field] = field_size field.2)
          by (unfold worklist_size; cbn [map list_sum fold_right];
              apply Nat.add_0_r).
        lia. }
      exists (entry_of field :: l). split; [|by rewrite Hrun].
      rewrite Hperm, !pending_app, pending_nested.
      by rewrite Permutation_middle.
Qed.

Lemma foldl_setitem_to_list (l : list (string * option string)) :
  ∀ descriptions : Descriptions,
    NoDup l.*1 →
    (∀ k, k ∈ l.*1 → descriptions !! k = None) →
    map_to_list (foldl setitem descriptions l) ≡ₚ l ++ map_to_list descriptions.
Proof.
  induction l as [|[k v] l IH]; intros acc Hnodup Hfresh; [done|].
  cbn in *. apply NoDup_cons in Hnodup as [Hk Hnodup].
  rewrite IH; [|done|].
  - unfold setitem. cbn. rewrite map_to_list_insert.
    + by rewrite Permutation_middle.
    + apply Hfresh. left.
  - intros k' Hk'. unfold setitem. cbn. rewrite lookup_insert_ne.
    + apply Hfresh. by right.
    + by intros ->.
Qed.

Lemma pending_columns schema :
  pending (map (λ column, (name column, column)) schema)
  = map entry_of (schema_fields schema).
Proof.
  unfold pending, schema_fields. by rewrite flat_map_map, map_flat_map.
Qed.

Lemma entry_of_paths schema : (map entry_of (schema_fields schema)).*1 = paths schema.
Proof.
  unfold paths. rewrite <- list_fmap_compose. by apply list_fmap_ext.
Qed.

(** The dictionary is the fields' entries, in some order, when no two fields
    share a qualified path. *)
Lemma flatten_to_list (T : list SchemaField) :
  NoDup (paths T) →
  map_to_list (_get_descriptions_from_schema T)
  ≡ₚ map entry_of (schema_fields T).
Proof.
  intros Hnodup. unfold _get_descriptions_from_schema. cbn zeta.
  destruct (process_foldl _ (map (λ column, (name column, column)) T) ∅
              (le_n _)) as [l [Hperm ->]].
  rewrite pending_columns in Hperm.
  rewrite foldl_setitem_to_list.
  - by rewrite map_to_list_empty, app_nil_r.
  - by rewrite Hperm, entry_of_paths.
  - intros k _. apply lookup_empty.
Qed.

(** C4 (flatten completeness).  For every schema T whose fields have
    pairwise distinct qualified paths (the data model's reading of a
    qualified path as the identifier of a field; it holds when names are
    unique among siblings and hold no dot), `_get_descriptions_from_schema`
    returns a dictionary with exactly one entry per field of T, nested
    fields at every depth included: its entries are, up to order, the
    pairs of the dotted qualified path and the description of each field;
    so it has as many entries as T has fields, it holds the description of
    every field at the path of that field, and it holds nothing else. *)
Theorem flatten_complete (T : list SchemaField) :
  NoDup (paths T) →
  map_to_list (_get_descriptions_from_schema T)
    ≡ₚ map entry_of (schema_fields T)
  ∧ size (_get_descriptions_from_schema T) = length (schema_fields T)
  ∧ (∀ P f, (P, f) ∈ schema_fields T →
            _get_descriptions_from_schema T !! P = Some (description f))
  ∧ (∀ P v, _get_descriptions_from_schema T !! P = Some v →
            ∃ f, (P, f) ∈ schema_fields T ∧ v = description f).
Proof.
  intros Hnodup. pose proof (flatten_to_list T Hnodup) as Hperm.
  split; [done|]. split; [|split].
  - rewrite <- length_map_to_list, Hperm. apply length_map.
  - intros P f Hin. apply elem_of_map_to_list. rewrite Hperm.
    apply list_elem_of_fmap. by exists (P, f).
  - intros P v Hv. apply elem_of_map_to_list in Hv. rewrite Hperm in Hv.
    apply list_elem_of_fmap in Hv. destruct Hv as [[P' f] [[= -> ->] Hin]].
    by exists f.
Qed.

Lemma flatten_complete_witness :
  NoDup (paths source_schema)
  ∧ map_to_list (_get_descriptions_from_schema source_schema)
      ≡ₚ map entry_of (schema_fields source_schema)
  ∧ size (_get_descriptions_from_schema source_schema)
    = length (schema_fields source_schema)
  ∧ (∀ P f, (P, f) ∈ schema_fields source_schema →
            _get_descriptions_from_schema source_schema !! P
            = Some (description f))
  ∧ (∀ P v, _get_descriptions_from_schema source_schema !! P = Some v →
            ∃ f, (P, f) ∈ schema_fields source_schema ∧ v = description f).
Proof.
  assert (Hnodup : NoDup (paths source_schema)) by (apply (bool_decide_unpack _); vm_compute; exact I).
  split; [exact Hnodup|]. exact (flatten_complete source_schema Hnodup).
Defined.

(* --------------------------------------------------------------------- *)
(* The drivers                                                           *)
(* --------------------------------------------------------------------- *)

Section DriverFacts.

Variable is_struct : string → bool.
Context {W : Type}.
Variable c : Client W.

Lemma run_update_table (w : W) (target : string) (M : Descriptions) :
  run c (_update_table is_struct target M) w
  = match get_table c w target with
    | Ok target_table =>
        let updated := set_schema target_table (merged_schema is_struct target_table M) in
        match update_table c w updated ["schema"] with
        | (w', Ok _) =>
            (w', [CallGetTable target; CallUpdateTable updated ["schema"]],
             Ok tt)
        | (w', Raise e) =>
            (w', [CallGetTable target; CallUpdateTable updated ["schema"]],
             Raise e)
        end
    | Raise e => (w, [CallGetTable target], Raise e)
    end.
Proof.
  unfold _update_table, merged_schema. cbn.
  destruct (get_table c w target) as [target_table|e]; [|done].
  rewrite _get_new_schema_merge. cbn.
  by destruct (update_table c w _ _) as [w' [[]|e]].
Qed.

Lemma run_copy (w : W) (source target : string) :
  run c (copy_field_descriptions is_struct source target) w
  = match get_table c w source with
    | Ok source_table =>
        let '(w', calls, r) :=
          run c (_update_table is_struct target
                   (_get_descriptions_from_schema (schema source_table))) w in
        (w', CallGetTable source :: calls, r)
    | Raise e => (w, [CallGetTable source], Raise e)
    end.
Proof. done. Qed.

Lemma run_upload (w : W) (csv_path target : string) :
  run c (upload_fields_descriptions_from_csv is_struct csv_path target) w
  = match read_csv c w csv_path with
    | Ok rows =>
        match rows_to_descriptions rows with
        | Ok M =>
            let '(w', calls, r) := run c (_update_table is_struct target M) w in
            (w', CallReadCsv csv_path :: calls, r)
        | Raise e => (w, [CallReadCsv csv_path], Raise e)
        end
    | Raise e => (w, [CallReadCsv csv_path], Raise e)
    end.
Proof.
  unfold upload_fields_descriptions_from_csv.
  cbn [run]. destruct (read_csv c w csv_path) as [rows|e]; [|done].
  by destruct (rows_to_descriptions rows) as [M|e].
Qed.

End DriverFacts.

(* --------------------------------------------------------------------- *)
(* Claims on the upload and copy drivers                                 *)
(* --------------------------------------------------------------------- *)

Lemma rows_to_descriptions_pairs (pairs : list (string * string)) :
  rows_to_descriptions (csv_rows pairs)
  = Ok (foldl setitem ∅ (map csv_entry pairs)).
Proof.
  unfold rows_to_descriptions, csv_rows.
  rewrite (mapM_ok _ (λ row, (default "" (row !! 0), row !! 1))).
  2:{ apply Forall_forall. intros row Hrow.
      apply list_elem_of_fmap in Hrow. by destruct Hrow as [pair [-> _]]. }
  cbn. by rewrite map_map.
Qed.

(** C6, amended (upload reads every row).  In upload mode no row of the
    csv file is discarded: for every csv input whose rows are (qualified
    path, description) pairs with pairwise distinct paths, the mapping
    handed to `_update_table`, and so to the merge, has exactly one entry
    per row of the file, the first row included. *)
Theorem upload_reads_every_row (is_struct : string → bool) {W : Type}
    (c : Client W) (w : W) (csv_path target : string)
    (pairs : list (string * string)) :
  read_csv c w csv_path = Ok (csv_rows pairs) →
  NoDup pairs.*1 →
  ∃ M : Descriptions,
    rows_to_descriptions (csv_rows pairs) = Ok M
    ∧ map_to_list M ≡ₚ map csv_entry pairs
    ∧ run c (upload_fields_descriptions_from_csv is_struct csv_path target) w
      = (let '(w', calls, r) := run c (_update_table is_struct target M) w in
         (w', CallReadCsv csv_path :: calls, r)).
Proof.
  intros Hread Hnodup. eexists. split; [apply rows_to_descriptions_pairs|].
  split.
  - rewrite foldl_setitem_to_list.
    + by rewrite map_to_list_empty, app_nil_r.
    + by rewrite <- list_fmap_compose.
    + intros k _. apply lookup_empty.
  - by rewrite run_upload, Hread, rows_to_descriptions_pairs.
Qed.

Lemma upload_reads_every_row_witness :
  read_csv store_client upload_store csv_file
  = Ok (csv_rows (("name", "description") :: csv_data))
  ∧ NoDup (("name", "description") :: csv_data).*1
  ∧ ∃ M : Descriptions,
      rows_to_descriptions (csv_rows (("name", "description") :: csv_data))
      = Ok M
      ∧ map_to_list M ≡ₚ map csv_entry (("name", "description") :: csv_data)
      ∧ run store_client
            (upload_fields_descriptions_from_csv is_record csv_file
               target_table_id) upload_store
        = (let '(w', calls, r) :=
             run store_client (_update_table is_record target_table_id M)
                 upload_store in
           (w', CallReadCsv csv_file :: calls, r)).
Proof.
  assert (Hread : read_csv store_client upload_store csv_file
                  = Ok (csv_rows (("name", "description") :: csv_data)))
    by reflexivity.
  assert (Hnodup : NoDup (("name", "description") :: csv_data).*1)
    by (apply (bool_decide_unpack _); vm_compute; exact I).
  split; [exact Hread|]. split; [exact Hnodup|].
  exact (upload_reads_every_row is_record store_client upload_store csv_file
           target_table_id _ Hread Hnodup).
Defined.

(** C6 as stated fails: on a csv file with the header row
    `name,description` and two data rows, the mapping built for the merge
    is not the two entries of the data rows; the header row is in it. *)
Lemma upload_keeps_header_row :
  ¬ (∃ M : Descriptions,
       rows_to_descriptions csv_with_header = Ok M
       ∧ map_to_list M ≡ₚ map csv_entry csv_data).
Proof.
  intros [M [Hrows Hperm]].
  apply Permutation_length in Hperm.
  vm_compute in Hrows. injection Hrows as <-.
  vm_compute in Hperm. discriminate Hperm.
Qed.

(** The header row reaches the target: a field that goes by the first cell
    of the header is given the second cell as its description. *)
Example upload_header_reaches_target :
  ∃ w' calls,
    run store_client
        (upload_fields_descriptions_from_csv is_record csv_file
           target_table_id) upload_store
    = (w', calls, Ok tt)
    ∧ (schema <$> tables w' !! target_table_id)
      = Some
          [ mkSchemaField "name" "STRING" "NULLABLE" (Some "description") [];
            mkSchemaField "clientId" "STRING" "NULLABLE" (Some "desc A") [];
            mkSchemaField "extra" "STRING" "NULLABLE" (Some "keep") [];
            mkSchemaField "totals" "RECORD" "NULLABLE" None
              [ mkSchemaField "hits" "INTEGER" "NULLABLE"
                  (Some "desc B") [] ] ].
Proof. eexists _, _. split; vm_compute; reflexivity. Qed.

Lemma patch_schema_only (stored : Table) (new_schema : list SchemaField) :
  patch_table stored (set_schema stored new_schema) ["schema"]
  = set_schema stored new_schema.
Proof.
  unfold patch_table, set_schema. cbn [schema properties full_table_id].
  rewrite bool_decide_eq_true_2 by (apply list_elem_of_singleton; done).
  f_equal. apply map_filter_union_complement.
Qed.

(** C7 (one persist, schema only).  For every client, every world and
    every copy or upload that ends without an exception, the run calls
    `update_table` exactly once, with the fetched target table in which
    only the schema has been replaced and with `['schema']` as the
    attributes to update, and the world it ends in is the one that call
    leaves.  On the reference store, where each table is stored under its
    own identifier, every stored table keeps its identifier and its other
    properties, tables other than the target keep their schema, and no
    file changes. *)
Theorem persist_once_schema_only (is_struct : string → bool) {W : Type}
    (c : Client W) (w w' : W) (op : Operation) (calls : list Call) :
  run c (perform is_struct op) w = (w', calls, Ok tt) →
  (∃ target_table new_schema,
     get_table c w (target_of op) = Ok target_table
     ∧ update_calls calls = [(set_schema target_table new_schema, ["schema"])]
     ∧ update_table c w (set_schema target_table new_schema) ["schema"]
       = (w', Ok tt))
  ∧ ∀ (s s' : Store) (calls' : list Call),
      (∀ id t, tables s !! id = Some t → full_table_id t = id) →
      run store_client (perform is_struct op) s = (s', calls', Ok tt) →
      files s' = files s
      ∧ ∀ id t, tables s !! id = Some t →
          ∃ t', tables s' !! id = Some t'
                ∧ full_table_id t' = full_table_id t
                ∧ properties t' = properties t
                ∧ (id ≠ target_of op → schema t' = schema t).
Proof.
  assert (Hgen : ∀ {W0 : Type} (c0 : Client W0) (w0 w0' : W0) calls0,
    run c0 (perform is_struct op) w0 = (w0', calls0, Ok tt) →
    ∃ target_table new_schema,
      get_table c0 w0 (target_of op) = Ok target_table
      ∧ update_calls calls0
        = [(set_schema target_table new_schema, ["schema"])]
      ∧ update_table c0 w0 (set_schema target_table new_schema) ["schema"]
        = (w0', Ok tt)).
  { clear. intros W0 c0 w0 w0' calls0 Hrun.
    assert (Hupd : ∀ M calls1,
      run c0 (_update_table is_struct (target_of op) M) w0
      = (w0', calls1, Ok tt) →
      ∃ target_table new_schema,
        get_table c0 w0 (target_of op) = Ok target_table
        ∧ update_calls calls1
          = [(set_schema target_table new_schema, ["schema"])]
        ∧ update_table c0 w0 (set_schema target_table new_schema) ["schema"]
          = (w0', Ok tt)).
    { intros M calls1. rewrite run_update_table.
      destruct (get_table c0 w0 (target_of op)) as [target_table|e]; [|done].
      cbn zeta.
      destruct (update_table c0 w0 _ _) as [w1 [[]|e]] eqn:Eupd; [|done].
      intros [= <- <-].
      by exists target_table, (merged_schema is_struct target_table M). }
    destruct op as [source target|csv_path target]; cbn [perform] in Hrun.
    - rewrite run_copy in Hrun.
      destruct (get_table c0 w0 source) as [source_table|e]; [|done].
      destruct (run c0 _ w0) as [[w1 calls1] r] eqn:E.
      injection Hrun as -> <- ->.
      destruct (Hupd _ _ E) as [t [n [? [? ?]]]]. by exists t, n.
    - rewrite run_upload in Hrun.
      destruct (read_csv c0 w0 csv_path) as [rows|e]; [|done].
      destruct (rows_to_descriptions rows) as [M|e]; [|done].
      destruct (run c0 _ w0) as [[w1 calls1] r] eqn:E.
      injection Hrun as -> <- ->.
      destruct (Hupd _ _ E) as [t [n [? [? ?]]]]. by exists t, n. }
  intros Hrun. split; [by apply Hgen|].
  intros s s' calls' Hids Hrun'.
  destruct (Hgen _ _ _ _ _ Hrun') as [t [n [Hget [_ Hupd]]]].
  cbn in Hget, Hupd.
  destruct (tables s !! target_of op) as [t0|] eqn:Et; [|done].
  injection Hget as ->.
  rewrite (Hids _ _ Et), Et in Hupd. injection Hupd as <-.
  cbn. split; [done|]. intros id t1 Hid.
  destruct (decide (id = target_of op)) as [->|Hne].
  - rewrite lookup_insert_eq. eexists. split; [done|].
    rewrite Et in Hid. injection Hid as <-.
    rewrite patch_schema_only. done.
  - rewrite lookup_insert_ne by done. by exists t1.
Qed.

Lemma persist_once_schema_only_witness :
  run store_client
      (perform is_record (Copy source_table_id target_table_id)) test_store
  = (mkStore
       (<[target_table_id :=
            mkTable target_table_id expected_schema
                    {[ "friendly_name" := "target" ]}]> (tables test_store))
       ∅,
     [ CallGetTable source_table_id;
       CallGetTable target_table_id;
       CallUpdateTable
         (mkTable target_table_id expected_schema
                  {[ "friendly_name" := "target" ]})
         ["schema"] ],
     Ok tt)
  ∧ ∃ target_table new_schema,
      get_table store_client test_store target_table_id = Ok target_table
      ∧ update_calls
          [ CallGetTable source_table_id;
            CallGetTable target_table_id;
            CallUpdateTable
              (mkTable target_table_id expected_schema
                       {[ "friendly_name" := "target" ]})
              ["schema"] ]
        = [(set_schema target_table new_schema, ["schema"])].
Proof.
  assert (Hrun :
    run store_client
        (perform is_record (Copy source_table_id target_table_id)) test_store
    = (mkStore
         (<[target_table_id :=
              mkTable target_table_id expected_schema
                      {[ "friendly_name" := "target" ]}]> (tables test_store))
         ∅,
       [ CallGetTable source_table_id;
         CallGetTable target_table_id;
         CallUpdateTable
           (mkTable target_table_id expected_schema
                    {[ "friendly_name" := "target" ]})
           ["schema"] ],
       Ok tt)) by (vm_compute; reflexivity).
  split; [exact Hrun|].
  destruct (persist_once_schema_only is_record store_client _ _ _ _ Hrun)
    as [[t [n [Hget [Hcalls _]]]] _].
  exists t, n. split; [exact Hget | exact Hcalls].
Defined.

Lemma persist_is_terminal_update_table (is_struct : string → bool) {W : Type}
    (c : Client W) (w w' : W) (target : string) (M : Descriptions)
    (calls : list Call) (r : Result unit) :
  run c (_update_table is_struct target M) w = (w', calls, r) →
  persist_is_terminal c w w' calls r.
Proof.
  rewrite run_update_table. unfold persist_is_terminal.
  destruct (get_table c w target) as [target_table|e] eqn:Eget.
  - cbn zeta. destruct (update_table c w _ _) as [w1 [[]|e]];
      intros [= <- <- <-]; cbn.
    all: split; [|split; [|split]].
    all: try (by apply le_n); try done.
    all: try (intros id e' [[= ->]|Hin]%elem_of_cons;
              [congruence | by apply list_elem_of_singleton in Hin]).
    all: intros table fs [?|Hin]%elem_of_cons; [done|];
         apply list_elem_of_singleton in Hin; by injection Hin as -> ->.
  - intros [= <- <- <-]. cbn. split; [|split; [|split]].
    + intros id e' Hin Hfail. apply list_elem_of_singleton in Hin.
      injection Hin as ->. split; [congruence | done].
    + apply le_0_n.
    + intros table fs Hin. by apply list_elem_of_singleton in Hin.
    + done.
Qed.

Lemma persist_is_terminal_after_read {W A} (c : Client W) (w w' : W)
    (first : Call) (calls : list Call) (r : Result A) :
  update_calls [first] = [] →
  (∀ id e, first = CallGetTable id → get_table c w id ≠ Raise e) →
  calls ≠ [] →
  persist_is_terminal c w w' calls r →
  persist_is_terminal c w w' (first :: calls) r.
Proof.
  intros Hfirst Hok Hne [Hfail [Hlen [Hlast Hsame]]].
  assert (Hcalls : update_calls (first :: calls) = update_calls calls).
  { unfold update_calls in *. cbn in *. by destruct first. }
  unfold persist_is_terminal. rewrite Hcalls.
  split; [|split; [done|split; [|done]]].
  - intros id e [<-|Hin]%elem_of_cons Hget; [by destruct (Hok id e)|].
    by apply (Hfail id e).
  - intros table fs [<-|Hin]%elem_of_cons; [by cbn in Hfirst|].
    destruct calls as [|call calls']; [done|].
    by apply Hlast.
Qed.

Lemma run_update_table_calls (is_struct : string → bool) {W : Type}
    (c : Client W) (w w' : W) (target : string) (M : Descriptions)
    (calls : list Call) (r : Result unit) :
  run c (_update_table is_struct target M) w = (w', calls, r) → calls ≠ [].
Proof.
  rewrite run_update_table.
  destruct (get_table c w target) as [target_table|e].
  - cbn zeta. by destruct (update_table c w _ _) as [w1 [[]|e]];
      intros [= <- <- <-].
  - by intros [= <- <- <-].
Qed.

(** C8 (a failed fetch aborts before persist).  For every client, every
    world and every copy or upload, whatever its outcome: when a table the
    run fetched cannot be fetched, the run ends in the exception of that
    fetch, makes no `update_table` call and leaves the world as it was;
    the run calls `update_table` at most once and as its last call; and a
    run without an `update_table` call leaves the world as it was. *)
Theorem fetch_failure_aborts (is_struct : string → bool) {W : Type}
    (c : Client W) (w w' : W) (op : Operation) (calls : list Call)
    (r : Result unit) :
  run c (perform is_struct op) w = (w', calls, r) →
  (∀ id e, CallGetTable id ∈ calls → get_table c w id = Raise e →
           r = Raise e ∧ update_calls calls = [] ∧ w' = w)
  ∧ (length (update_calls calls) ≤ 1)%nat
  ∧ (∀ table update_fields,
       CallUpdateTable table update_fields ∈ calls →
       last calls = Some (CallUpdateTable table update_fields))
  ∧ (update_calls calls = [] → w' = w).
Proof.
  intros Hrun. change (persist_is_terminal c w w' calls r).
  destruct op as [source target|csv_path target]; cbn [perform] in Hrun.
  - rewrite run_copy in Hrun.
    destruct (get_table c w source) as [source_table|e] eqn:Eget.
    + destruct (run c _ w) as [[w1 calls1] r1] eqn:E.
      injection Hrun as <- <- <-.
      apply persist_is_terminal_after_read.
      * done.
      * intros id e [= <-]. congruence.
      * by eapply run_update_table_calls.
      * by eapply persist_is_terminal_update_table.
    + injection Hrun as <- <- <-. unfold persist_is_terminal. cbn.
      split; [|split; [|split]].
      * intros id e' Hin Hfail. apply list_elem_of_singleton in Hin.
        injection Hin as ->. split; [congruence | done].
      * apply le_0_n.
      * intros table fs Hin. by apply list_elem_of_singleton in Hin.
      * done.
  - rewrite run_upload in Hrun.
    assert (Hstop : ∀ e : Exn,
      persist_is_terminal c w w [CallReadCsv csv_path] (Raise e : Result unit)).
    { intros e. unfold persist_is_terminal. cbn.
      split; [|split; [|split]].
      - intros id e' Hin. by apply list_elem_of_singleton in Hin.
      - apply le_0_n.
      - intros table fs Hin. by apply list_elem_of_singleton in Hin.
      - done. }
    destruct (read_csv c w csv_path) as [rows|e].
    + destruct (rows_to_descriptions rows) as [M|e].
      * destruct (run c _ w) as [[w1 calls1] r1] eqn:E.
        injection Hrun as <- <- <-.
        apply persist_is_terminal_after_read.
        -- done.
        -- by intros id e.
        -- by eapply run_update_table_calls.
        -- by eapply persist_is_terminal_update_table.
      * injection Hrun as <- <- <-. apply Hstop.
    + injection Hrun as <- <- <-. apply Hstop.
Qed.

Lemma fetch_failure_aborts_witness :
  run store_client
      (perform is_record (Copy missing_table_id target_table_id)) test_store
  = (test_store, [CallGetTable missing_table_id],
     Raise (ClientError "NotFound"))
  ∧ (∀ id e, CallGetTable id ∈ [CallGetTable missing_table_id] →
             get_table store_client test_store id = Raise e →
             (Raise (ClientError "NotFound") : Result unit) = Raise e
             ∧ update_calls [CallGetTable missing_table_id] = []
             ∧ test_store = test_store)
  ∧ (length (update_calls [CallGetTable missing_table_id]) ≤ 1)%nat
  ∧ (∀ table update_fields,
       CallUpdateTable table update_fields ∈ [CallGetTable missing_table_id] →
       last [CallGetTable missing_table_id]
       = Some (CallUpdateTable table update_fields))
  ∧ (update_calls [CallGetTable missing_table_id] = [] →
     test_store = test_store).
Proof.
  assert (Hrun :
    run store_client
        (perform is_record (Copy missing_table_id target_table_id)) test_store
    = (test_store, [CallGetTable missing_table_id],
       Raise (ClientError "NotFound"))) by (vm_compute; reflexivity).
  split; [exact Hrun|].
  exact (fetch_failure_aborts is_record store_client _ _ _ _ _ Hrun).
Defined.

(* --------------------------------------------------------------------- *)
(* Qualified paths identify fields                                       *)
(* --------------------------------------------------------------------- *)

Lemma append_assoc (a b c : string) : (a +:+ b) +:+ c = a +:+ (b +:+ c).
Proof.
  induction a as [|x a IH]; [done|].
  change (String x ((a +:+ b) +:+ c) = String x (a +:+ (b +:+ c))).
  by rewrite IH.
Qed.

Lemma append_empty_r (a : string) : a +:+ "" = a.
Proof.
  induction a as [|x a IH]; [done|].
  change (String x (a +:+ "") = String x a). by rewrite IH.
Qed.

Lemma append_inv_head (p x y : string) : p +:+ x = p +:+ y → x = y.
Proof.
  induction p as [|a p IH]; [done|].
  change (String a (p +:+ x) = String a (p +:+ y) → x = y).
  intros [= H]. by apply IH.
Qed.

Lemma dot_free_cons a s : dot_free (String a s) = true → a ≠ "."%char ∧ dot_free s = true.
Proof.
  cbn. intros [Ha Hs]%andb_prop. split; [|done].
  intros ->. by rewrite Ascii.eqb_refl in Ha.
Qed.

(** The name is the part of the path before the next dot. *)
Lemma name_of_path (n1 n2 t1 t2 : string) :
  dot_free n1 = true → dot_free n2 = true →
  path_rest t1 → path_rest t2 →
  n1 +:+ t1 = n2 +:+ t2 → n1 = n2.
Proof.
  revert n2. induction n1 as [|a n1 IH]; intros [|b n2] H1 H2 Ht1 Ht2 Heq.
  - done.
  - change (t1 = String b (n2 +:+ t2)) in Heq. subst t1.
    apply dot_free_cons in H2 as [Hb _].
    destruct Ht1 as [?|[s [= -> _]]]; done.
  - change (String a (n1 +:+ t1) = t2) in Heq. subst t2.
    apply dot_free_cons in H1 as [Ha _].
    destruct Ht2 as [?|[s [= -> _]]]; done.
  - change (String a (n1 +:+ t1) = String b (n2 +:+ t2)) in Heq.
    injection Heq as -> Heq. f_equal.
    apply dot_free_cons in H1 as [_ H1]. apply dot_free_cons in H2 as [_ H2].
    by apply IH.
Qed.

(** Every path under a field starts with the path of the field. *)
Lemma walk_under (f : SchemaField) :
  ∀ path q, q ∈ (walk path f).*1 → ∃ t, q = path +:+ t ∧ path_rest t.
Proof.
  induction f as [n t m d fs IH] using SchemaField_nested_ind.
  intros path q. cbn. intros [->|Hq]%elem_of_cons.
  - exists "". split; [by rewrite append_empty_r | by left].
  - apply list_elem_of_fmap in Hq. destruct Hq as [pf [-> Hpf]].
    apply list_elem_of_In, in_flat_map in Hpf. destruct Hpf as [c [Hc Hpf]].
    rewrite Forall_forall in IH.
    destruct (IH c (proj2 (list_elem_of_In _ _) Hc)
                 (qualify path (name c)) pf.1) as [t' [Heq _]].
    { apply list_elem_of_fmap. exists pf.
      split; [done | by apply list_elem_of_In]. }
    exists (String "."%char (name c +:+ t')). split; [|right; by eexists].
    rewrite Heq. unfold qualify. by rewrite !append_assoc.
Qed.

Lemma walk_under_child (c : SchemaField) (path q : string) :
  q ∈ (walk (qualify path (name c)) c).*1 →
  ∃ t, q = path +:+ String "."%char (name c +:+ t) ∧ path_rest t.
Proof.
  intros [t [-> Ht]]%walk_under. exists t. split; [|done].
  unfold qualify. by rewrite !append_assoc.
Qed.

Lemma NoDup_flat_map_by_name (g : SchemaField → list string)
    (fs : list SchemaField) :
  NoDup (map name fs) →
  (∀ c, c ∈ fs → NoDup (g c)) →
  (∀ c c' q, c ∈ fs → c' ∈ fs → q ∈ g c → q ∈ g c' → name c = name c') →
  NoDup (flat_map g fs).
Proof.
  induction fs as [|c fs IH]; intros Hnames Heach Hsame; cbn.
  - constructor.
  - cbn in Hnames. apply NoDup_cons in Hnames as [Hc Hnames].
    apply NoDup_app. split; [|split].
    + apply Heach. left.
    + intros q Hq Hq'. apply Hc.
      apply list_elem_of_In, in_flat_map in Hq'.
      destruct Hq' as [c' [Hc' Hq']].
      apply list_elem_of_In in Hc', Hq'.
      rewrite (Hsame c c' q); [|left|by right|done..].
      apply list_elem_of_fmap. by exists c'.
    + apply IH; [done| |].
      * intros c' Hc'. apply Heach. by right.
      * intros c1 c2 q H1 H2. apply Hsame; by right.
Qed.

Lemma sibling_names_ok_spec (siblings : list SchemaField) :
  sibling_names_ok siblings = true →
  NoDup (map name siblings)
  ∧ ∀ c, c ∈ siblings → dot_free (name c) = true.
Proof.
  unfold sibling_names_ok. intros [Hfree Hnodup]%andb_prop.
  apply bool_decide_eq_true in Hnodup. split; [done|].
  intros c Hc. rewrite forallb_forall in Hfree.
  by apply Hfree, list_elem_of_In.
Qed.

Lemma names_ok_field_unique_paths (f : SchemaField) :
  names_ok_field f = true → ∀ path, NoDup (walk path f).*1.
Proof.
  induction f as [n t m d fs IH] using SchemaField_nested_ind.
  cbn. intros [Hsib Hall]%andb_prop path.
  fold names_ok_field in Hall.
  apply sibling_names_ok_spec in Hsib as [Hnodup Hfree].
  rewrite forallb_forall in Hall. rewrite Forall_forall in IH.
  assert (Hmap : (flat_map (λ c, walk (qualify path (name c)) c) fs).*1
                 = flat_map (λ c, (walk (qualify path (name c)) c).*1) fs)
    by apply map_flat_map.
  rewrite Hmap. apply NoDup_cons. split.
  - intros Hin. apply list_elem_of_In, in_flat_map in Hin.
    destruct Hin as [c [_ Hin]].
    apply list_elem_of_In, walk_under_child in Hin.
    destruct Hin as [t' [Heq _]].
    rewrite <- (append_empty_r path) in Heq at 1.
    by apply append_inv_head in Heq.
  - apply NoDup_flat_map_by_name; [done| |].
    + intros c Hc. apply (IH c Hc). by apply Hall, list_elem_of_In.
    + intros c c' q Hc Hc' [t1 [-> Ht1]]%walk_under_child
        [t2 [Heq Ht2]]%walk_under_child.
      apply append_inv_head in Heq. injection Heq as Heq.
      apply (name_of_path (name c) (name c') t1 t2); auto.
Qed.

(** In a schema where names are unique among siblings and hold no dot, no
    two fields share a qualified path. *)
Lemma names_ok_unique_paths (schema : list SchemaField) :
  names_ok schema = true → NoDup (paths schema).
Proof.
  unfold names_ok. intros [Hsib Hall]%andb_prop.
  apply sibling_names_ok_spec in Hsib as [Hnodup Hfree].
  rewrite forallb_forall in Hall.
  unfold paths, schema_fields.
  assert (Hmap : (flat_map (λ f, walk (name f) f) schema).*1
                 = flat_map (λ f, (walk (name f) f).*1) schema)
    by apply map_flat_map.
  rewrite Hmap. apply NoDup_flat_map_by_name; [done| |].
  - intros f Hf. by apply names_ok_field_unique_paths, Hall, list_elem_of_In.
  - intros f f' q Hf Hf' [t1 [-> Ht1]]%walk_under [t2 [Heq Ht2]]%walk_under.
    apply (name_of_path (name f) (name f') t1 t2); auto.
Qed.

(** A dot in a name breaks the identification: the root field `a.b` and the
    child `b` of the root record `a` share the path `a.b`, and the
    dictionary keeps one entry for the two. *)
Example dotted_name_collides :
  let schema :=
    [ mkSchemaField "a.b" "STRING" "NULLABLE" (Some "root") [];
      mkSchemaField "a" "RECORD" "NULLABLE" None
        [ mkSchemaField "b" "STRING" "NULLABLE" (Some "child") [] ] ] in
  length (schema_fields schema) = 3
  ∧ map_to_list (_get_descriptions_from_schema schema)
    = [("a.b", Some "root"); ("a", None)].
Proof. split; vm_compute; reflexivity. Qed.

(* --------------------------------------------------------------------- *)
(* The flattened dictionary without the assumption on paths              *)
(* --------------------------------------------------------------------- *)

Lemma foldl_setitem_lookup (l : list (string * option string)) :
  ∀ (descriptions : Descriptions) (k : string),
    is_Some (foldl setitem descriptions l !! k)
    ↔ is_Some (descriptions !! k) ∨ k ∈ l.*1.
Proof.
  induction l as [|[k' v] l IH]; intros acc k; cbn.
  - rewrite elem_of_nil. tauto.
  - rewrite IH, elem_of_cons. unfold setitem. cbn.
    destruct (decide (k' = k)) as [->|Hne].
    + rewrite lookup_insert_eq. split; [intros _; right; by left|].
      intros _. left. by eexists.
    + rewrite lookup_insert_ne by done. split; [tauto|].
      intros [?|[?|?]]; [tauto|congruence|tauto].
Qed.

(** Whatever the names, the keys of the dictionary are the qualified paths
    of the schema. *)
Lemma flatten_keys (T : list SchemaField) (P : string) :
  is_Some (_get_descriptions_from_schema T !! P) ↔ P ∈ paths T.
Proof.
  unfold _get_descriptions_from_schema. cbn zeta.
  destruct (process_foldl _ (map (λ column, (name column, column)) T) ∅
              (le_n _)) as [l [Hperm ->]].
  rewrite pending_columns in Hperm.
  rewrite foldl_setitem_lookup, lookup_empty, Hperm, entry_of_paths.
  split; [intros [[? ?]|?]; done | by right].
Qed.

(** The upload scenario of the specification: a csv file without a header
    row, a target with the two paths of the file and an unrelated field. *)
Example upload_scenario :
  let store :=
    mkStore
      (<[target_table_id :=
           mkTable target_table_id
             [ mkSchemaField "clientId" "STRING" "NULLABLE" None [];
               mkSchemaField "extra" "STRING" "NULLABLE" (Some "keep") [];
               mkSchemaField "totals" "RECORD" "NULLABLE" None
                 [ mkSchemaField "hits" "INTEGER" "NULLABLE" None [] ] ]
             ∅]> ∅)
      (<[csv_file := csv_rows csv_data]> ∅) in
  ∃ w' calls,
    run store_client
        (upload_fields_descriptions_from_csv is_record csv_file
           target_table_id) store
    = (w', calls, Ok tt)
    ∧ (schema <$> tables w' !! target_table_id)
      = Some
          [ mkSchemaField "clientId" "STRING" "NULLABLE" (Some "desc A") [];
            mkSchemaField "extra" "STRING" "NULLABLE" (Some "keep") [];
            mkSchemaField "totals" "RECORD" "NULLABLE" None
              [ mkSchemaField "hits" "INTEGER" "NULLABLE"
                  (Some "desc B") [] ] ].
Proof. eexists _, _. split; vm_compute; reflexivity. Qed.

(* ===================================================================== *)
(* Further properties of the code                                        *)
(* ===================================================================== *)

(* --------------------------------------------------------------------- *)
(* _update_field on any dictionary                                       *)
(* --------------------------------------------------------------------- *)

(** X1.  On every dictionary, with or without the key 'fields',
    `_update_field` raises nothing and returns a dictionary with the same
    name, type and mode; the key 'fields' is there afterwards exactly when
    it was there before, with as many nested dictionaries; and the
    description is the one it had or the non-empty value the mapping holds
    at the name. *)
Theorem update_field_keeps_keys (a : ApiField) (path : string)
    (descriptions : Descriptions) :
  ∃ a', _update_field a path descriptions = Ok a'
        ∧ api_name a' = api_name a
        ∧ api_type a' = api_type a
        ∧ api_mode a' = api_mode a
        ∧ (length <$> api_fields a') = (length <$> api_fields a)
        ∧ (api_description a' = api_description a
           ∨ (descriptions !! path = Some (api_description a')
              ∧ truthy (api_description a') = true)).
Proof.
  exists (update_api descriptions path a).
  split; [apply _update_field_ok|].
  destruct a as [n t m d [nested|]]; cbn; repeat split.
  - by rewrite length_map.
  - unfold new_description.
    destruct (descriptions !! path) as [v|]; [|by left].
    destruct (truthy v) eqn:E; [by right | by left].
  - unfold new_description.
    destruct (descriptions !! path) as [v|]; [|by left].
    destruct (truthy v) eqn:E; [by right | by left].
Qed.

(* --------------------------------------------------------------------- *)
(* More on the merge                                                     *)
(* --------------------------------------------------------------------- *)

Lemma new_description_cases (M : Descriptions) (path : string)
    (d : option string) :
  new_description M path d = d
  ∨ (M !! path = Some (new_description M path d)
     ∧ truthy (new_description M path d) = true).
Proof.
  unfold new_description. destruct (M !! path) as [v|]; [|by left].
  destruct (truthy v) eqn:E; [by right | by left].
Qed.

(** X2.  The merge never clears and never invents: in the merged schema
    of a well-formed target, the description of the field at each position
    is the one the target had there or the non-empty value of the mapping
    at its path; so a field with a non-empty description still has one. *)
Theorem merge_never_clears (is_struct : string → bool)
    (T : list SchemaField) (M : Descriptions) :
  wf_schema is_struct T = true →
  ∃ T', _get_new_schema is_struct T M = Ok T'
        ∧ ∀ (i : nat) (P : string) (f : SchemaField),
            schema_fields T !! i = Some (P, f) →
            ∃ f', schema_fields T' !! i = Some (P, f')
                  ∧ (description f' = description f
                     ∨ (M !! P = Some (description f')
                        ∧ truthy (description f') = true))
                  ∧ (truthy (description f) = true →
                     truthy (description f') = true).
Proof.
  intros Hwf. exists (merge M T). rewrite _get_new_schema_wf by done.
  split; [done|]. intros i P f Hi.
  exists (merge_field M P f). rewrite schema_fields_merge.
  rewrite list_lookup_fmap, Hi. split; [done|].
  destruct f as [n t m d fs]. cbn.
  destruct (new_description_cases M P d) as [->|[HM Ht]].
  - by split; [left|].
  - by split; [right|].
Qed.

Lemma merge_never_clears_witness :
  wf_schema is_record expected_schema = true
  ∧ ∃ T', _get_new_schema is_record expected_schema nested_descriptions
          = Ok T'
          ∧ ∀ (i : nat) (P : string) (f : SchemaField),
              schema_fields expected_schema !! i = Some (P, f) →
              ∃ f', schema_fields T' !! i = Some (P, f')
                    ∧ (description f' = description f
                       ∨ (nested_descriptions !! P = Some (description f')
                          ∧ truthy (description f') = true))
                    ∧ (truthy (description f) = true →
                       truthy (description f') = true).
Proof.
  split; [reflexivity|].
  apply (merge_never_clears is_record expected_schema); reflexivity.
Defined.

Lemma new_description_filter (M : Descriptions) (path : string)
    (d : option string) :
  new_description (filter (λ kv, truthy kv.2 = true) M) path d
  = new_description M path d.
Proof.
  unfold new_description.
  destruct (M !! path) as [v|] eqn:E.
  - destruct (truthy v) eqn:Ht.
    + rewrite (proj2 (map_lookup_filter_Some _ M path v)) by done.
      by rewrite Ht.
    + rewrite (proj2 (map_lookup_filter_None _ M path)); [done|].
      right. intros v' Hv'. rewrite E in Hv'. injection Hv' as <-.
      cbn. by rewrite Ht.
  - rewrite (proj2 (map_lookup_filter_None _ M path)); [done|]. by left.
Qed.

Lemma merge_field_new_description (M M' : Descriptions) f :
  (∀ path d, new_description M path d = new_description M' path d) →
  ∀ path, merge_field M path f = merge_field M' path f.
Proof.
  intros Hsame.
  induction f as [n t m d fs IH] using SchemaField_nested_ind; intros path.
  cbn. rewrite Hsame. f_equal. apply map_ext_Forall.
  eapply Forall_impl; [exact IH|]. intros c Hc. apply Hc.
Qed.

(** X3.  Entries whose value is None or the empty string count for
    nothing: the merge with a mapping is the merge with its non-empty
    entries alone. *)
Theorem merge_ignores_empty_values (is_struct : string → bool)
    (T : list SchemaField) (M : Descriptions) :
  _get_new_schema is_struct T (filter (λ kv, truthy kv.2 = true) M)
  = _get_new_schema is_struct T M.
Proof.
  rewrite !_get_new_schema_merge. f_equal. unfold merge.
  apply map_ext. intros f. apply merge_field_new_description.
  apply new_description_filter.
Qed.

Lemma new_description_merge_maps (M1 M2 : Descriptions) (path : string)
    (d : option string) :
  new_description M2 path (new_description M1 path d)
  = new_description (merge_maps M1 M2) path d.
Proof.
  unfold merge_maps, new_description at 1 3.
  rewrite lookup_union.
  destruct (M2 !! path) as [v|] eqn:E.
  - destruct (truthy v) eqn:Ht.
    + rewrite (proj2 (map_lookup_filter_Some _ M2 path v)) by done.
      destruct (M1 !! path); cbn; by rewrite Ht.
    + rewrite (proj2 (map_lookup_filter_None _ M2 path)).
      2:{ right. intros v' Hv'. rewrite E in Hv'. injection Hv' as <-.
          cbn. by rewrite Ht. }
      unfold new_description. by destruct (M1 !! path).
  - rewrite (proj2 (map_lookup_filter_None _ M2 path)) by by left.
    unfold new_description. by destruct (M1 !! path).
Qed.

Lemma merge_field_twice (M1 M2 : Descriptions) f :
  ∀ path,
    merge_field M2 path (merge_field M1 path f)
    = merge_field (merge_maps M1 M2) path f.
Proof.
  induction f as [n t m d fs IH] using SchemaField_nested_ind; intros path.
  cbn. rewrite new_description_merge_maps. f_equal.
  rewrite map_map. apply map_ext_Forall.
  eapply Forall_impl; [exact IH|]. intros c Hc. cbn.
  by rewrite name_merge_field, Hc.
Qed.

(** X4.  Two merges in a row are one merge: merging M1 and then M2 into a
    schema gives what merging the combined mapping gives, in which the
    non-empty entries of M2 take over and every other path is as in M1. *)
Theorem merge_twice (is_struct : string → bool)
    (T : list SchemaField) (M1 M2 : Descriptions) :
  ∃ T1 T2,
    _get_new_schema is_struct T M1 = Ok T1
    ∧ _get_new_schema is_struct T1 M2 = Ok T2
    ∧ _get_new_schema is_struct T (merge_maps M1 M2) = Ok T2.
Proof.
  exists (merge M1 (map (round_trip is_struct) T)),
         (merge M2 (merge M1 (map (round_trip is_struct) T))).
  split; [apply _get_new_schema_merge|].
  rewrite _get_new_schema_wf
    by by rewrite wf_schema_merge, wf_schema_round_trip.
  split; [done|]. rewrite _get_new_schema_merge. f_equal.
  generalize (map (round_trip is_struct) T). intros S.
  unfold merge. rewrite map_map. apply map_ext. intros f.
  by rewrite name_merge_field, merge_field_twice.
Qed.

(* --------------------------------------------------------------------- *)
(* Flattening and merging together                                       *)
(* --------------------------------------------------------------------- *)

Lemma foldl_setitem_lookup_Some (l : list (string * option string)) :
  ∀ (descriptions : Descriptions) (k : string) (v : option string),
    foldl setitem descriptions l !! k = Some v →
    descriptions !! k = Some v ∨ (k, v) ∈ l.
Proof.
  induction l as [|[k' v'] l IH]; intros acc k v; cbn; [by left|].
  intros [Hacc|Hin]%IH; [|right; by right].
  unfold setitem in Hacc. cbn in Hacc.
  destruct (decide (k' = k)) as [->|Hne].
  - rewrite lookup_insert_eq in Hacc. injection Hacc as ->. right. left.
  - rewrite lookup_insert_ne in Hacc by done. by left.
Qed.

Lemma flatten_value (T : list SchemaField) (P : string) (v : option string) :
  _get_descriptions_from_schema T !! P = Some v →
  ∃ f, (P, f) ∈ schema_fields T ∧ v = description f.
Proof.
  unfold _get_descriptions_from_schema. cbn zeta.
  destruct (process_foldl _ (map (λ column, (name column, column)) T) ∅
              (le_n _)) as [l [Hperm ->]].
  rewrite pending_columns in Hperm.
  intros [Hempty|Hin]%foldl_setitem_lookup_Some.
  - by rewrite lookup_empty in Hempty.
  - rewrite Hperm in Hin. apply list_elem_of_fmap in Hin.
    destruct Hin as [[P' f] [[= -> ->] Hin]]. by exists f.
Qed.

(** X5.  Whatever the names of the fields, the keys of the flattened
    dictionary are exactly the qualified paths of the schema, and the value
    at a key is the description of a field at that path. *)
Theorem flatten_sound (T : list SchemaField) (P : string) :
  (is_Some (_get_descriptions_from_schema T !! P) ↔ P ∈ paths T)
  ∧ ∀ v, _get_descriptions_from_schema T !! P = Some v →
         ∃ f, (P, f) ∈ schema_fields T ∧ v = description f.
Proof. split; [apply flatten_keys | apply flatten_value]. Qed.

Lemma flatten_lookup (T : list SchemaField) (P : string) (f : SchemaField) :
  NoDup (paths T) →
  (P, f) ∈ schema_fields T →
  _get_descriptions_from_schema T !! P = Some (description f).
Proof.
  intros Hnodup Hin. apply elem_of_map_to_list.
  rewrite (flatten_to_list T Hnodup).
  apply list_elem_of_fmap. by exists (P, f).
Qed.

Lemma merge_field_fixed (M : Descriptions) f :
  ∀ path,
    (∀ q g, (q, g) ∈ walk path f →
            new_description M q (description g) = description g) →
    merge_field M path f = f.
Proof.
  induction f as [n t m d fs IH] using SchemaField_nested_ind;
    intros path Hfixed.
  pose proof (Hfixed path (mkSchemaField n t m d fs)) as Hroot.
  cbn in Hroot |- *. rewrite Hroot by left.
  f_equal. rewrite <- (map_id fs) at 2.
  apply map_ext_Forall. rewrite Forall_forall in IH |- *.
  intros c Hc. apply (IH c Hc). intros q g Hq. apply Hfixed.
  cbn. right. apply list_elem_of_In, in_flat_map. exists c.
  split; by apply list_elem_of_In.
Qed.

Lemma merge_fixed (M : Descriptions) (schema : list SchemaField) :
  (∀ q g, (q, g) ∈ schema_fields schema →
          new_description M q (description g) = description g) →
  merge M schema = schema.
Proof.
  intros Hfixed. unfold merge. rewrite <- (map_id schema) at 2.
  apply map_ext_in. intros f Hf. apply merge_field_fixed.
  intros q g Hq. apply Hfixed. unfold schema_fields.
  apply list_elem_of_In, in_flat_map. exists f.
  split; [done | by apply list_elem_of_In].
Qed.

(** X6.  Flattening a schema and merging the dictionary back into it
    gives the schema itself, when the schema is well formed and no two of
    its fields share a qualified path: copying a table onto itself changes
    no description. *)
Theorem merge_own_descriptions (is_struct : string → bool)
    (T : list SchemaField) :
  wf_schema is_struct T = true →
  NoDup (paths T) →
  _get_new_schema is_struct T (_get_descriptions_from_schema T) = Ok T.
Proof.
  intros Hwf Hnodup. rewrite _get_new_schema_wf by done. f_equal.
  apply merge_fixed. intros q g Hq. unfold new_description.
  rewrite (flatten_lookup T q g Hnodup Hq).
  by destruct (truthy (description g)).
Qed.

Lemma merge_own_descriptions_witness :
  wf_schema is_record source_schema = true
  ∧ NoDup (paths source_schema)
  ∧ _get_new_schema is_record source_schema
      (_get_descriptions_from_schema source_schema) = Ok source_schema.
Proof.
  assert (Hwf : wf_schema is_record source_schema = true) by reflexivity.
  assert (Hnodup : NoDup (paths source_schema))
    by (apply (bool_decide_unpack _); vm_compute; exact I).
  split; [exact Hwf|]. split; [exact Hnodup|].
  exact (merge_own_descriptions is_record source_schema Hwf Hnodup).
Defined.

(** X7.  What a copy does to a field: with a source whose fields have
    pairwise distinct qualified paths and a well-formed target, the field of
    the target at path P takes the description of the source field at P
    when the source has a field there with a non-empty description, and
    keeps its own description otherwise, that is when the source has no
    field at P or one without a description. *)
Theorem copy_takes_source_description (is_struct : string → bool)
    (S T : list SchemaField) :
  NoDup (paths S) →
  wf_schema is_struct T = true →
  ∃ T', _get_new_schema is_struct T (_get_descriptions_from_schema S) = Ok T'
        ∧ ∀ (i : nat) (P : string) (f : SchemaField),
            schema_fields T !! i = Some (P, f) →
            ∃ f', schema_fields T' !! i = Some (P, f')
                  ∧ name f' = name f
                  ∧ (∀ g, (P, g) ∈ schema_fields S →
                          truthy (description g) = true →
                          description f' = description g)
                  ∧ ((∀ g, (P, g) ∈ schema_fields S →
                           truthy (description g) = false) →
                     description f' = description f).
Proof.
  intros Hnodup Hwf. exists (merge (_get_descriptions_from_schema S) T).
  rewrite _get_new_schema_wf by done. split; [done|].
  intros i P f Hi.
  exists (merge_field (_get_descriptions_from_schema S) P f).
  rewrite schema_fields_merge, list_lookup_fmap, Hi. split; [done|].
  destruct f as [n t m d fs]. cbn. split; [done|]. split.
  - intros g Hg Htruthy. unfold new_description.
    by rewrite (flatten_lookup S P g Hnodup Hg), Htruthy.
  - intros Hnone. unfold new_description.
    destruct (_get_descriptions_from_schema S !! P) as [v|] eqn:E; [|done].
    destruct (flatten_value S P v E) as [g [Hg ->]].
    by rewrite (Hnone g Hg).
Qed.

Lemma copy_takes_source_description_witness :
  NoDup (paths source_schema)
  ∧ wf_schema is_record target_schema = true
  ∧ ∃ T', _get_new_schema is_record target_schema
            (_get_descriptions_from_schema source_schema) = Ok T'
          ∧ ∀ (i : nat) (P : string) (f : SchemaField),
              schema_fields target_schema !! i = Some (P, f) →
              ∃ f', schema_fields T' !! i = Some (P, f')
                    ∧ name f' = name f
                    ∧ (∀ g, (P, g) ∈ schema_fields source_schema →
                            truthy (description g) = true →
                            description f' = description g)
                    ∧ ((∀ g, (P, g) ∈ schema_fields source_schema →
                             truthy (description g) = false) →
                       description f' = description f).
Proof.
  assert (Hnodup : NoDup (paths source_schema))
    by (apply (bool_decide_unpack _); vm_compute; exact I).
  assert (Hwf : wf_schema is_record target_schema = true) by reflexivity.
  split; [exact Hnodup|]. split; [exact Hwf|].
  exact (copy_takes_source_description is_record source_schema target_schema
           Hnodup Hwf).
Defined.

(* --------------------------------------------------------------------- *)
(* The rows of the csv file                                              *)
(* --------------------------------------------------------------------- *)

Lemma mapM_Ok_Forall {A B} (f : A → Result B) (l : list A) (ys : list B) :
  mapM f l = Ok ys → Forall (λ x, ∃ y, f x = Ok y) l.
Proof.
  revert ys. induction l as [|x l IH]; intros ys; [constructor|].
  cbn. fold (mapM f). destruct (f x) as [y|e] eqn:Ex; [|done]. cbn.
  destruct (mapM f l) as [ys'|e] eqn:El; [|done].
  intros _. constructor; [by exists y | by eapply IH].
Qed.

Lemma mapM_Raise_Exists {A B} (f : A → Result B) (l : list A) (e : Exn) :
  mapM f l = Raise e → Exists (λ x, f x = Raise e) l.
Proof.
  induction l as [|x l IH]; [done|].
  cbn. fold (mapM f). destruct (f x) as [y|e'] eqn:Ex; cbn.
  - destruct (mapM f l) as [ys'|e''] eqn:El; [done|].
    intros [= ->]. right. by apply IH.
  - intros [= ->]. by left.
Qed.

Lemma row_cells_ok (row : list string) :
  (2 ≤ length row)%nat →
  (key ← row_item row 0; value ← row_item row 1; Ok (key, Some value))
  = Ok (row_entry row).
Proof. destruct row as [|k [|v rest]]; cbn; [lia..|done]. Qed.

Lemma row_cells_short (row : list string) :
  (length row < 2)%nat →
  (key ← row_item row 0; value ← row_item row 1;
   Ok (key, Some value) : Result (string * option string))
  = Raise IndexError.
Proof. destruct row as [|k [|v rest]]; cbn; [done..|lia]. Qed.

Lemma rows_to_descriptions_ok (rows : list (list string)) :
  Forall (λ row, (2 ≤ length row)%nat) rows →
  rows_to_descriptions rows = Ok (foldl setitem ∅ (map row_entry rows)).
Proof.
  intros Hrows. unfold rows_to_descriptions.
  rewrite (mapM_ok _ row_entry); [done|].
  eapply Forall_impl; [exact Hrows|]. intros row. apply row_cells_ok.
Qed.

Lemma rows_to_descriptions_short (rows : list (list string)) :
  Exists (λ row, (length row < 2)%nat) rows →
  rows_to_descriptions rows = Raise IndexError.
Proof.
  intros Hshort. unfold rows_to_descriptions.
  destruct (mapM _ rows) as [pairs|e] eqn:E; cbn.
  - apply mapM_Ok_Forall in E. rewrite Forall_forall in E.
    apply Exists_exists in Hshort. destruct Hshort as [row [Hin Hlen]].
    destruct (E row Hin) as [y Hy].
    by rewrite row_cells_short in Hy.
  - apply mapM_Raise_Exists, Exists_exists in E.
    destruct E as [row [_ Hrow]].
    destruct (decide (length row < 2)%nat) as [Hlt|Hge].
    + rewrite row_cells_short in Hrow by done. by injection Hrow as <-.
    + rewrite row_cells_ok in Hrow by lia. done.
Qed.

(** X8.  The rows of the csv file become a dictionary exactly when every
    row has two cells at least; otherwise building the dictionary raises
    IndexError, and it raises nothing else. *)
Theorem rows_need_two_cells (rows : list (list string)) :
  ((∃ M, rows_to_descriptions rows = Ok M)
   ↔ Forall (λ row, (2 ≤ length row)%nat) rows)
  ∧ ∀ e, rows_to_descriptions rows = Raise e → e = IndexError.
Proof.
  destruct (decide (Forall (λ row, (2 ≤ length row)%nat) rows)) as [Hall|Hnot].
  - rewrite rows_to_descriptions_ok by done. split; [|done].
    split; [done|]. intros _. by eexists.
  - assert (Hshort : Exists (λ row, (length row < 2)%nat) rows).
    { apply not_Forall_Exists in Hnot; [|intros row; apply _].
      eapply Exists_impl; [exact Hnot|]. intros row Hrow. cbn in Hrow. lia. }
    rewrite rows_to_descriptions_short by done. split.
    + split; [by intros [M ?] | done].
    + by intros e [= <-].
Qed.

Lemma foldl_setitem_absent (l : list (string * option string)) :
  ∀ (descriptions : Descriptions) (k : string),
    k ∉ l.*1 → foldl setitem descriptions l !! k = descriptions !! k.
Proof.
  induction l as [|[k' v'] l IH]; intros acc k Hk; [done|].
  cbn in *. apply not_elem_of_cons in Hk as [Hne Hk].
  rewrite IH by done. unfold setitem. cbn. by rewrite lookup_insert_ne.
Qed.

(** X9.  Among rows with the same first cell the last one counts, and
    cells after the second are ignored: when every row has two cells at
    least and no row after the row `k, v, ...` starts with k, the
    dictionary holds v at k. *)
Theorem last_row_wins (before after : list (list string))
    (k v : string) (more : list string) :
  Forall (λ row, (2 ≤ length row)%nat) before →
  Forall (λ row, (2 ≤ length row)%nat) after →
  (∀ row, row ∈ after → row !! 0 ≠ Some k) →
  ∃ M, rows_to_descriptions (before ++ (k :: v :: more) :: after) = Ok M
       ∧ M !! k = Some (Some v).
Proof.
  intros Hbefore Hafter Hlast. eexists. split.
  - apply rows_to_descriptions_ok. apply Forall_app. split; [done|].
    constructor; [cbn; lia | done].
  - rewrite map_app, foldl_app. cbn [map foldl].
    rewrite foldl_setitem_absent.
    + unfold setitem, row_entry. cbn. apply lookup_insert_eq.
    + intros Hin. apply list_elem_of_fmap in Hin.
      destruct Hin as [entry [Hk Hin]].
      apply list_elem_of_fmap in Hin. destruct Hin as [row [-> Hrow]].
      rewrite Forall_forall in Hafter.
      pose proof (Hafter row Hrow) as Hlen. apply (Hlast row Hrow).
      destruct row as [|k' row']; cbn in *; [lia|]. by subst.
Qed.

Lemma last_row_wins_witness :
  Forall (λ row, (2 ≤ length row)%nat) [["clientId"; "first"]]
  ∧ Forall (λ row, (2 ≤ length row)%nat) [["totals.hits"; "desc B"]]
  ∧ (∀ row, row ∈ [["totals.hits"; "desc B"]] → row !! 0 ≠ Some "clientId")
  ∧ ∃ M, rows_to_descriptions
           ([["clientId"; "first"]]
            ++ ["clientId"; "second"; "ignored"]
               :: [["totals.hits"; "desc B"]]) = Ok M
         ∧ M !! "clientId" = Some (Some "second").
Proof.
  assert (H1 : Forall (λ row, (2 ≤ length row)%nat) [["clientId"; "first"]])
    by (repeat constructor).
  assert (H2 : Forall (λ row, (2 ≤ length row)%nat)
                 [["totals.hits"; "desc B"]])
    by (repeat constructor).
  assert (H3 : ∀ row, row ∈ [["totals.hits"; "desc B"]] →
                      row !! 0 ≠ Some "clientId").
  { intros row Hrow. apply list_elem_of_singleton in Hrow. by subst. }
  split; [exact H1|]. split; [exact H2|]. split; [exact H3|].
  exact (last_row_wins _ _ "clientId" "second" ["ignored"] H1 H2 H3).
Defined.

(* --------------------------------------------------------------------- *)
(* More on the drivers                                                   *)
(* --------------------------------------------------------------------- *)

(** X10.  A row with fewer than two cells ends the upload before the
    target is touched: the run raises IndexError after reading the file,
    without fetching the target and without an `update_table` call, and
    the world is as it was. *)
Theorem upload_short_row_aborts (is_struct : string → bool) {W : Type}
    (c : Client W) (w : W) (csv_path target : string)
    (rows : list (list string)) :
  read_csv c w csv_path = Ok rows →
  Exists (λ row, (length row < 2)%nat) rows →
  run c (upload_fields_descriptions_from_csv is_struct csv_path target) w
  = (w, [CallReadCsv csv_path], Raise IndexError).
Proof.
  intros Hread Hshort.
  by rewrite run_upload, Hread, rows_to_descriptions_short.
Qed.

Lemma upload_short_row_aborts_witness :
  read_csv store_client short_row_store csv_file
  = Ok [["clientId"; "desc A"]; ["totals.hits"]]
  ∧ Exists (λ row, (length row < 2)%nat)
      [["clientId"; "desc A"]; ["totals.hits"]]
  ∧ run store_client
        (upload_fields_descriptions_from_csv is_record csv_file
           target_table_id) short_row_store
    = (short_row_store, [CallReadCsv csv_file], Raise IndexError).
Proof.
  assert (Hread : read_csv store_client short_row_store csv_file
                  = Ok [["clientId"; "desc A"]; ["totals.hits"]])
    by reflexivity.
  assert (Hshort : Exists (λ row, (length row < 2)%nat)
                     [["clientId"; "desc A"]; ["totals.hits"]])
    by (right; left; cbn; lia).
  split; [exact Hread|]. split; [exact Hshort|].
  exact (upload_short_row_aborts is_record store_client short_row_store
           csv_file target_table_id _ Hread Hshort).
Defined.

Lemma set_schema_same (table : Table) : set_schema table (schema table) = table.
Proof. by destruct table. Qed.

(** X11.  An empty csv file still persists: the upload fetches the target
    and calls `update_table` on it with the schema it fetched, when that
    schema is well formed; the outcome and the final world are those of
    that call. *)
Theorem upload_empty_file_persists (is_struct : string → bool) {W : Type}
    (c : Client W) (w : W) (csv_path target : string) (target_table : Table) :
  read_csv c w csv_path = Ok [] →
  get_table c w target = Ok target_table →
  wf_schema is_struct (schema target_table) = true →
  run c (upload_fields_descriptions_from_csv is_struct csv_path target) w
  = ((update_table c w target_table ["schema"]).1,
     [ CallReadCsv csv_path; CallGetTable target;
       CallUpdateTable target_table ["schema"] ],
     (update_table c w target_table ["schema"]).2).
Proof.
  intros Hread Hget Hwf. rewrite run_upload, Hread. cbn [rows_to_descriptions
    mapM bind foldl]. rewrite run_update_table, Hget. cbn zeta.
  unfold merged_schema. rewrite round_trip_wf_schema by done.
  rewrite merge_empty, set_schema_same.
  by destruct (update_table c w target_table ["schema"]) as [w' [[]|e]].
Qed.

Lemma upload_empty_file_persists_witness :
  read_csv store_client empty_csv_store csv_file = Ok []
  ∧ get_table store_client empty_csv_store target_table_id
    = Ok (mkTable target_table_id upload_schema ∅)
  ∧ wf_schema is_record upload_schema = true
  ∧ run store_client
        (upload_fields_descriptions_from_csv is_record csv_file
           target_table_id) empty_csv_store
    = ((update_table store_client empty_csv_store
          (mkTable target_table_id upload_schema ∅) ["schema"]).1,
       [ CallReadCsv csv_file; CallGetTable target_table_id;
         CallUpdateTable (mkTable target_table_id upload_schema ∅)
           ["schema"] ],
       (update_table store_client empty_csv_store
          (mkTable target_table_id upload_schema ∅) ["schema"]).2).
Proof.
  assert (Hread : read_csv store_client empty_csv_store csv_file = Ok [])
    by reflexivity.
  assert (Hget : get_table store_client empty_csv_store target_table_id
                 = Ok (mkTable target_table_id upload_schema ∅))
    by reflexivity.
  assert (Hwf : wf_schema is_record
                  (schema (mkTable target_table_id upload_schema ∅)) = true)
    by reflexivity.
  split; [exact Hread|]. split; [exact Hget|]. split; [exact Hwf|].
  exact (upload_empty_file_persists is_record store_client empty_csv_store
           csv_file target_table_id _ Hread Hget Hwf).
Defined.

(** The three ways a run of `_update_table` can go. *)
Lemma run_update_table_shape (is_struct : string → bool) {W : Type}
    (c : Client W) (w w' : W) (target : string) (M : Descriptions)
    (calls : list Call) (r : Result unit) :
  run c (_update_table is_struct target M) w = (w', calls, r) →
  (calls = [CallGetTable target] ∧ w' = w
   ∧ get_table c w target = Raise (match r with
                                   | Raise e => e
                                   | Ok _ => IndexError
                                   end)
   ∧ ∃ e, r = Raise e)
  ∨ ∃ target_table,
      get_table c w target = Ok target_table
      ∧ calls = [ CallGetTable target;
                  CallUpdateTable
                    (set_schema target_table
                       (merged_schema is_struct target_table M))
                    ["schema"] ]
      ∧ update_table c w
          (set_schema target_table (merged_schema is_struct target_table M))
          ["schema"] = (w', r).
Proof.
  rewrite run_update_table.
  destruct (get_table c w target) as [target_table|e].
  - cbn zeta. destruct (update_table c w _ _) as [w1 [[]|e]] eqn:E;
      intros [= <- <- <-]; right; by exists target_table.
  - intros [= <- <- <-]. left. repeat split; by eexists.
Qed.

(** The three ways a run of a driver can go. *)
Lemma run_perform_shape (is_struct : string → bool) {W : Type}
    (c : Client W) (w w' : W) (op : Operation) (calls : list Call)
    (r : Result unit) :
  run c (perform is_struct op) w = (w', calls, r) →
  (calls = [first_call op] ∧ w' = w ∧ ∃ e, r = Raise e)
  ∨ (calls = [first_call op; CallGetTable (target_of op)] ∧ w' = w
     ∧ ∃ e, r = Raise e ∧ get_table c w (target_of op) = Raise e)
  ∨ (∃ target_table new_schema,
       get_table c w (target_of op) = Ok target_table
       ∧ calls = [ first_call op; CallGetTable (target_of op);
                   CallUpdateTable (set_schema target_table new_schema)
                     ["schema"] ]
       ∧ update_table c w (set_schema target_table new_schema) ["schema"]
         = (w', r)).
Proof.
  assert (Hupd : ∀ M calls1 first,
    run c (_update_table is_struct (target_of op) M) w = (w', calls1, r) →
    (first :: calls1 = [first; CallGetTable (target_of op)] ∧ w' = w
     ∧ ∃ e, r = Raise e ∧ get_table c w (target_of op) = Raise e)
    ∨ (∃ target_table new_schema,
         get_table c w (target_of op) = Ok target_table
         ∧ first :: calls1
           = [ first; CallGetTable (target_of op);
               CallUpdateTable (set_schema target_table new_schema)
                 ["schema"] ]
         ∧ update_table c w (set_schema target_table new_schema) ["schema"]
           = (w', r))).
  { intros M calls1 first
      [[-> [-> [Hget [e ->]]]]|[t [Hget [-> Hupd]]]]%run_update_table_shape.
    - left. repeat split. by exists e.
    - right. by exists t, (merged_schema is_struct t M). }
  intros Hrun.
  destruct op as [source target|csv_path target]; cbn [perform] in Hrun.
  - rewrite run_copy in Hrun.
    destruct (get_table c w source) as [source_table|e].
    + destruct (run c _ w) as [[w1 calls1] r1] eqn:E.
      injection Hrun as <- <- <-. right. by eapply Hupd.
    + injection Hrun as <- <- <-. left. repeat split. by eexists.
  - rewrite run_upload in Hrun.
    destruct (read_csv c w csv_path) as [rows|e].
    + destruct (rows_to_descriptions rows) as [M|e].
      * destruct (run c _ w) as [[w1 calls1] r1] eqn:E.
        injection Hrun as <- <- <-. right. by eapply Hupd.
      * injection Hrun as <- <- <-. left. repeat split. by eexists.
    + injection Hrun as <- <- <-. left. repeat split. by eexists.
Qed.

(** X12.  The calls of a driver, in order: a copy fetches the source, an
    upload reads the csv file; then the target is fetched; then
    `update_table` is called with `['schema']`.  The run stops at the
    first call that raises, or after the csv file at a row that cannot be
    read, with the exception and the world as it was; a run that reaches
    `update_table` ends as that call ends, in its world and with its
    outcome. *)
Theorem calls_in_order (is_struct : string → bool) {W : Type}
    (c : Client W) (w w' : W) (op : Operation) (calls : list Call)
    (r : Result unit) :
  run c (perform is_struct op) w = (w', calls, r) →
  (calls = [first_call op] ∧ w' = w ∧ ∃ e, r = Raise e)
  ∨ (calls = [first_call op; CallGetTable (target_of op)] ∧ w' = w
     ∧ ∃ e, r = Raise e ∧ get_table c w (target_of op) = Raise e)
  ∨ (∃ table,
       calls = [ first_call op; CallGetTable (target_of op);
                 CallUpdateTable table ["schema"] ]
       ∧ update_table c w table ["schema"] = (w', r)).
Proof.
  intros [H|[H|[t [n [_ [Hcalls Hupd]]]]]]%run_perform_shape.
  - by left.
  - right. by left.
  - right. right. by eexists.
Qed.

Lemma calls_in_order_witness :
  run store_client
      (perform is_record (Copy missing_table_id target_table_id)) test_store
  = (test_store, [CallGetTable missing_table_id],
     Raise (ClientError "NotFound"))
  ∧ (([CallGetTable missing_table_id]
      = [first_call (Copy missing_table_id target_table_id)]
      ∧ test_store = test_store
      ∧ ∃ e, (Raise (ClientError "NotFound") : Result unit) = Raise e)
     ∨ ([CallGetTable missing_table_id]
        = [ first_call (Copy missing_table_id target_table_id);
            CallGetTable (target_of (Copy missing_table_id target_table_id)) ]
        ∧ test_store = test_store
        ∧ ∃ e, (Raise (ClientError "NotFound") : Result unit) = Raise e
               ∧ get_table store_client test_store
                   (target_of (Copy missing_table_id target_table_id))
                 = Raise e)
     ∨ (∃ table,
          [CallGetTable missing_table_id]
          = [ first_call (Copy missing_table_id target_table_id);
              CallGetTable
                (target_of (Copy missing_table_id target_table_id));
              CallUpdateTable table ["schema"] ]
          ∧ update_table store_client test_store table ["schema"]
            = (test_store, Raise (ClientError "NotFound")))).
Proof.
  assert (Hrun :
    run store_client
        (perform is_record (Copy missing_table_id target_table_id)) test_store
    = (test_store, [CallGetTable missing_table_id],
       Raise (ClientError "NotFound"))) by (vm_compute; reflexivity).
  split; [exact Hrun|].
  exact (calls_in_order is_record store_client _ _ _ _ _ Hrun).
Defined.

(* --------------------------------------------------------------------- *)
(* main                                                                  *)
(* --------------------------------------------------------------------- *)

Lemma truthy_Some (v : option string) :
  truthy v = true → ∃ s, v = Some s ∧ s ≠ "".
Proof. destruct v as [[|a s]|]; [done| |done]. intros _. by eexists. Qed.

(** The ways `main` can go, by its arguments. *)
Lemma main_cases (is_struct : string → bool) (args : Namespace) :
  let log_level := if arg_debug args then DEBUG else INFO in
  (arg_mode args = "copy" ∧ truthy (arg_source_table_id args) = false
   ∧ main is_struct args = UsageError "source table id is missing for copy")
  ∨ (arg_mode args = "upload" ∧ truthy (arg_csv_path args) = false
     ∧ main is_struct args = UsageError "csv path is missing for upload")
  ∨ (∃ source, arg_mode args = "copy"
               ∧ arg_source_table_id args = Some source ∧ source ≠ ""
               ∧ main is_struct args
                 = Running log_level
                     (perform is_struct
                        (Copy source (arg_target_table_id args))))
  ∨ (∃ csv_path, arg_mode args = "upload"
                 ∧ arg_csv_path args = Some csv_path ∧ csv_path ≠ ""
                 ∧ main is_struct args
                   = Running log_level
                       (perform is_struct
                          (Upload csv_path (arg_target_table_id args))))
  ∨ (arg_mode args ≠ "copy" ∧ arg_mode args ≠ "upload"
     ∧ main is_struct args = Running log_level (Return tt)).
Proof.
  destruct args as [mode source target csv debug]. cbn. unfold main. cbn.
  destruct (String.eqb_spec mode "copy") as [->|Hcopy].
  - cbn. destruct (truthy source) eqn:Hs; cbn.
    + apply truthy_Some in Hs as [s [-> Hne]].
      right. right. left. by exists s.
    + by left.
  - cbn. destruct (String.eqb_spec mode "upload") as [->|Hupload].
    + cbn. destruct (truthy csv) eqn:Hc; cbn.
      * apply truthy_Some in Hc as [s [-> Hne]].
        right. right. right. left. by exists s.
      * right. by left.
    + cbn. by repeat right.
Qed.

(** X13.  `main` reports a usage error, and runs nothing, exactly when the
    mode is copy without a source table id or upload without a csv path
    (not given, or empty).  Otherwise, against every client: the run reads
    a csv file only in upload mode and only the one given, fetches no
    table but the target and, in copy mode, the source, and calls
    `update_table` only for `['schema']` and only on the table it fetched
    under the target id, with its identifier and other properties as
    fetched. *)
Theorem main_touches_target_only (is_struct : string → bool)
    (args : Namespace) {W : Type} (c : Client W) (w : W) :
  match main is_struct args with
  | UsageError _ =>
      (arg_mode args = "copy" ∧ truthy (arg_source_table_id args) = false)
      ∨ (arg_mode args = "upload" ∧ truthy (arg_csv_path args) = false)
  | Running log_level p =>
      log_level = (if arg_debug args then DEBUG else INFO)
      ∧ ¬ (arg_mode args = "copy"
           ∧ truthy (arg_source_table_id args) = false)
      ∧ ¬ (arg_mode args = "upload" ∧ truthy (arg_csv_path args) = false)
      ∧ ∀ w' calls r,
          run c p w = (w', calls, r) →
          (∀ csv_path, CallReadCsv csv_path ∈ calls →
             arg_mode args = "upload" ∧ arg_csv_path args = Some csv_path)
          ∧ (∀ id, CallGetTable id ∈ calls →
               id = arg_target_table_id args
               ∨ (arg_mode args = "copy"
                  ∧ arg_source_table_id args = Some id))
          ∧ (∀ table update_fields,
               CallUpdateTable table update_fields ∈ calls →
               update_fields = ["schema"]
               ∧ ∃ target_table,
                   get_table c w (arg_target_table_id args) = Ok target_table
                   ∧ full_table_id table = full_table_id target_table
                   ∧ properties table = properties target_table)
  end.
Proof.
  assert (Hop : ∀ op w' calls r,
    target_of op = arg_target_table_id args →
    run c (perform is_struct op) w = (w', calls, r) →
    (∀ call, call ∈ calls →
       call = first_call op ∨ call = CallGetTable (arg_target_table_id args)
       ∨ ∃ target_table new_schema,
           get_table c w (arg_target_table_id args) = Ok target_table
           ∧ call = CallUpdateTable (set_schema target_table new_schema)
                      ["schema"])).
  { intros op w' calls r Htarget Hrun%run_perform_shape call Hin.
    rewrite Htarget in Hrun.
    destruct Hrun as [[-> _]|[[-> _]|[t [n [Hget [-> _]]]]]].
    - apply list_elem_of_singleton in Hin. by left.
    - apply elem_of_cons in Hin as [->|Hin]; [by left|].
      apply list_elem_of_singleton in Hin. right. by left.
    - apply elem_of_cons in Hin as [->|Hin]; [by left|].
      apply elem_of_cons in Hin as [->|Hin]; [right; by left|].
      apply list_elem_of_singleton in Hin. right. right. by exists t, n. }
  destruct (main_cases is_struct args)
    as [[Hm [Hs ->]]|[[Hm [Hs ->]]|[[s [Hm [Hs [Hne ->]]]]
        |[[s [Hm [Hs [Hne ->]]]]|[Hm1 [Hm2 ->]]]]]].
  - by left.
  - by right.
  - split; [done|].
    split; [intros [_ Hf]; rewrite Hs in Hf; by destruct s|].
    split; [intros [Hu _]; congruence|].
    intros w' calls r Hrun.
    pose proof (Hop (Copy s (arg_target_table_id args)) _ _ _ eq_refl Hrun)
      as Hcalls.
    split; [|split].
    + intros path Hin.
      destruct (Hcalls _ Hin) as [Hc|[Hc|[t [n [_ Hc]]]]];
        cbn in Hc; discriminate.
    + intros id Hin.
      destruct (Hcalls _ Hin) as [Hc|[Hc|[t [n [_ Hc]]]]]; cbn in Hc;
        [injection Hc as ->; by right
        |injection Hc as ->; by left
        |discriminate].
    + intros table fs Hin.
      destruct (Hcalls _ Hin) as [Hc|[Hc|[t [n [Hget Hc]]]]]; cbn in Hc;
        [discriminate..|].
      injection Hc as -> ->. split; [done|]. by exists t.
  - split; [done|].
    split; [intros [Hu _]; congruence|].
    split; [intros [_ Hf]; rewrite Hs in Hf; by destruct s|].
    intros w' calls r Hrun.
    pose proof (Hop (Upload s (arg_target_table_id args)) _ _ _ eq_refl Hrun)
      as Hcalls.
    split; [|split].
    + intros path Hin.
      destruct (Hcalls _ Hin) as [Hc|[Hc|[t [n [_ Hc]]]]]; cbn in Hc;
        [injection Hc as ->; done | discriminate..].
    + intros id Hin.
      destruct (Hcalls _ Hin) as [Hc|[Hc|[t [n [_ Hc]]]]]; cbn in Hc;
        [discriminate
        |injection Hc as ->; by left
        |discriminate].
    + intros table fs Hin.
      destruct (Hcalls _ Hin) as [Hc|[Hc|[t [n [Hget Hc]]]]]; cbn in Hc;
        [discriminate..|].
      injection Hc as -> ->. split; [done|]. by exists t.
  - split; [done|]. split; [by intros [? _]|]. split; [by intros [? _]|].
    intros w' calls r [= <- <- <-].
    split; [|split].
    + intros path Hin. by apply elem_of_nil in Hin.
    + intros id Hin. by apply elem_of_nil in Hin.
    + intros table fs Hin. by apply elem_of_nil in Hin.
Qed.
